(** * TrendFlix: the search and trending synchronisation flow

    A shallow embedding of [src/App.jsx] (the root component's two
    asynchronous operations, [fetchMovies] and [loadTrendingMovies]) and of
    [src/appwrite.js] ([updateSearchCount], [getTrendingMovies]).

    JavaScript's effects are written out: React state, the document store
    and the log of observable actions live in one [world]; an operation is a
    function from a world to an outcome (a value or a thrown exception)
    and the world it leaves behind.  State changes made before a [throw]
    persist, as they do in JavaScript.

    Conventions of the model.
    - A string is held as the octets of the UTF-8 encoding of its code
      points.  A surrogate that has no partner, which a JavaScript string
      may contain, is held as the three octets its own code point gets
      (ED, then A0..BF, then 80..BF); a surrogate pair is held as the four
      octets of the character it stands for.
    - Numbers that the program computes with (identifiers, counters) are
      integers in the range where JavaScript's [+] is exact.
    - A parsed body is a JSON object, so reading a field of it does not
      raise; its [results], when there is one, is an array of movies.
    - A database call that fails does so in the transport, before the store
      has done anything.
    - One run of an asynchronous function is one uninterrupted computation:
      the points where it awaits are sequenced, not interleaved. *)

From Stdlib Require Import String Ascii List ZArith Bool PeanoNat Lia.
From Stdlib Require Import Sorted Permutation DecimalString.
Import ListNotations.
Local Open Scope string_scope.
Local Set Warnings "-register-all".

(* ===================================================================== *)
(** * JavaScript values *)
(* ===================================================================== *)

(** The values a parsed JSON body can hold in a field, with [undefined]
    for a field that is absent. *)
Inductive jsval : Type :=
| JUndefined
| JNull
| JBool (b : bool)
| JNum (n : Z)
| JStr (s : string)
| JArr (elems : list jsval)
| JObj (fields : list (string * jsval)).

(** ToBoolean: [undefined], [null], [false], [0] and [''] are falsy. *)
Definition truthy (v : jsval) : bool :=
  match v with
  | JUndefined | JNull => false
  | JBool b => b
  | JNum n => negb (n =? 0)%Z
  | JStr s => negb (s =? "")
  | JArr _ | JObj _ => true
  end.

(** [a || b] *)
Definition js_or (a b : jsval) : jsval := if truthy a then a else b.

(** [v === s] for a string literal [s]: no conversion takes place. *)
Definition strict_eq_string (v : jsval) (s : string) : bool :=
  match v with
  | JStr t => t =? s
  | _ => false
  end.

(** Exceptions, by constructor name, with their message. *)
Inductive exn : Type :=
| JsError (message : string)
| JsTypeError (message : string)
| JsSyntaxError (message : string)
| JsURIError (message : string)
| AppwriteException (message : string).

(* ===================================================================== *)
(** * Data model *)
(* ===================================================================== *)

(** A movie of the catalogue; [poster_path] is a string or [null]. *)
Record Movie : Type := {
  movie_id_of : Z;                    (* id *)
  title : string;
  poster_path : option string         (* None is JSON null *)
}.

(** The parsed body of a catalogue response, read through the three fields
    the program consumes.  [Response] and [Error] are [JUndefined] when the
    body does not have them; [results] is [None] when the body has no such
    array ([data.results] is [undefined]). *)
Record payload : Type := {
  Response : jsval;
  Error : jsval;
  results : option (list Movie)
}.

(** What [response.json()] does. *)
Inductive json_outcome : Type :=
| JsonRejects (e : exn)
| JsonResolves (data : payload).

Record response : Type := {
  ok : bool;
  json : json_outcome
}.

(** What [fetch(endpoint, API_OPTIONS)] does. *)
Inductive fetch_outcome : Type :=
| FetchRejects (e : exn)
| FetchResolves (r : response).

(** A document of the search collection. *)
Record document : Type := {
  doc_id : nat;                       (* $id *)
  searchTerm : string;
  count : Z;
  movie_id : Z;
  poster_url : string
}.

(** React state of [App]. *)
Record state : Type := {
  debouncedSearchTerm : string;
  searchTermInput : string;           (* searchTerm *)
  movieList : list Movie;
  errorMessage : jsval;
  isLoading : bool;
  isTrendingLoading : bool;
  trandingMovies : option (list document)   (* None is undefined *)
}.

(** [useState] initial values. *)
Definition initial_state : state :=
  {| debouncedSearchTerm := "";
     searchTermInput := "";
     movieList := [];
     errorMessage := JStr "";
     isLoading := false;
     isTrendingLoading := false;
     trandingMovies := Some [] |}.

(** The state setters. *)
Inductive update : Type :=
| SetDebouncedSearchTerm (s : string)
| SetSearchTerm (s : string)
| SetMovieList (l : list Movie)
| SetErrorMessage (v : jsval)
| SetIsLoading (b : bool)
| SetIsTrendingLoading (b : bool)
| SetTtendingMovies (v : option (list document)).

Definition apply_update (u : update) (s : state) : state :=
  match u with
  | SetDebouncedSearchTerm x =>
      {| debouncedSearchTerm := x; searchTermInput := searchTermInput s;
         movieList := movieList s; errorMessage := errorMessage s;
         isLoading := isLoading s; isTrendingLoading := isTrendingLoading s;
         trandingMovies := trandingMovies s |}
  | SetSearchTerm x =>
      {| debouncedSearchTerm := debouncedSearchTerm s; searchTermInput := x;
         movieList := movieList s; errorMessage := errorMessage s;
         isLoading := isLoading s; isTrendingLoading := isTrendingLoading s;
         trandingMovies := trandingMovies s |}
  | SetMovieList x =>
      {| debouncedSearchTerm := debouncedSearchTerm s;
         searchTermInput := searchTermInput s;
         movieList := x; errorMessage := errorMessage s;
         isLoading := isLoading s; isTrendingLoading := isTrendingLoading s;
         trandingMovies := trandingMovies s |}
  | SetErrorMessage x =>
      {| debouncedSearchTerm := debouncedSearchTerm s;
         searchTermInput := searchTermInput s;
         movieList := movieList s; errorMessage := x;
         isLoading := isLoading s; isTrendingLoading := isTrendingLoading s;
         trandingMovies := trandingMovies s |}
  | SetIsLoading x =>
      {| debouncedSearchTerm := debouncedSearchTerm s;
         searchTermInput := searchTermInput s;
         movieList := movieList s; errorMessage := errorMessage s;
         isLoading := x; isTrendingLoading := isTrendingLoading s;
         trandingMovies := trandingMovies s |}
  | SetIsTrendingLoading x =>
      {| debouncedSearchTerm := debouncedSearchTerm s;
         searchTermInput := searchTermInput s;
         movieList := movieList s; errorMessage := errorMessage s;
         isLoading := isLoading s; isTrendingLoading := x;
         trandingMovies := trandingMovies s |}
  | SetTtendingMovies x =>
      {| debouncedSearchTerm := debouncedSearchTerm s;
         searchTermInput := searchTermInput s;
         movieList := movieList s; errorMessage := errorMessage s;
         isLoading := isLoading s; isTrendingLoading := isTrendingLoading s;
         trandingMovies := x |}
  end.

(** Observable actions, logged as they happen. *)
Inductive level : Type := LevelError | LevelWarn.

Inductive event : Type :=
| Update (u : update)
| Fetch (endpoint : string)
| Called_updateSearchCount (term : string) (first : option Movie)
| Console (l : level) (label : string) (e : exn).

(** The world an operation runs in.
    - [store] holds the collection in insertion order and [next_id] is the
      next identifier the store hands out.
    - [faults] is what the transport will do to the coming database
      calls, one entry per call: [true] makes the call fail.  When the list
      is used up, calls go through.
    - [trace] is the log of actions, the most recent first. *)
Record world : Type := {
  ui : state;
  store : list document;
  next_id : nat;
  faults : list bool;
  trace : list event
}.

(* ===================================================================== *)
(** * Computations that may throw *)
(* ===================================================================== *)

Inductive result (A : Type) : Type :=
| Ok (a : A)
| Throw (e : exn).
Arguments Ok {A} a.
Arguments Throw {A} e.

Definition M (A : Type) : Type := world -> result A * world.

Definition ret {A} (a : A) : M A := fun w => (Ok a, w).

Definition bind {A B} (c : M A) (k : A -> M B) : M B :=
  fun w =>
    match c w with
    | (Ok a, w1) => k a w1
    | (Throw e, w1) => (Throw e, w1)
    end.

Definition throw {A} (e : exn) : M A := fun w => (Throw e, w).

(** [try { body } catch (error) { handler }] *)
Definition try_catch {A} (body : M A) (handler : exn -> M A) : M A :=
  fun w =>
    match body w with
    | (Ok a, w1) => (Ok a, w1)
    | (Throw e, w1) => handler e w1
    end.

(** [try { body } finally { cleanup }]: the cleanup runs on both exits and
    the body's outcome stands unless the cleanup itself throws. *)
Definition try_finally {A} (body : M A) (cleanup : M unit) : M A :=
  fun w =>
    match body w with
    | (r, w1) =>
        match cleanup w1 with
        | (Ok _, w2) => (r, w2)
        | (Throw e, w2) => (Throw e, w2)
        end
    end.

Declare Scope js_scope.
Delimit Scope js_scope with js.
Notation "x <- c ;; k" := (bind c (fun x => k))
  (at level 100, c at next level, right associativity) : js_scope.
Notation "c ;; k" := (bind c (fun _ => k))
  (at level 100, right associativity) : js_scope.
Local Open Scope js_scope.

Definition emit (e : event) : M unit :=
  fun w =>
    (Ok tt, {| ui := ui w; store := store w; next_id := next_id w;
               faults := faults w; trace := e :: trace w |}).

(** A state setter: the state changes and the change is logged. *)
Definition set (u : update) : M unit :=
  fun w =>
    (Ok tt, {| ui := apply_update u (ui w); store := store w;
               next_id := next_id w; faults := faults w;
               trace := Update u :: trace w |}).

Definition console_error (label : string) (e : exn) : M unit :=
  emit (Console LevelError label e).

Definition console_warn (label : string) (e : exn) : M unit :=
  emit (Console LevelWarn label e).

(* ===================================================================== *)
(** * The document store *)
(* ===================================================================== *)

(** Every database call crosses the transport first. *)
Definition transport : M unit :=
  fun w =>
    match faults w with
    | [] => (Ok tt, w)
    | f :: fs =>
        let w1 := {| ui := ui w; store := store w; next_id := next_id w;
                     faults := fs; trace := trace w |} in
        if f then (Throw (AppwriteException "request failed"), w1)
        else (Ok tt, w1)
    end.

Definition put_store (docs : list document) (next : nat) : M unit :=
  fun w =>
    (Ok tt, {| ui := ui w; store := docs; next_id := next;
               faults := faults w; trace := trace w |}).

(** [Query.equal('searchTerm', term)] *)
Definition matching (term : string) (docs : list document) : list document :=
  filter (fun d => searchTerm d =? term) docs.
Arguments matching : simpl never.

(** [Query.orderDesc("count")]: an insertion sort by falling count.  The
    order among documents with equal counts is the store's own; here the
    one inserted later comes first. *)
Fixpoint insert_desc (d : document) (l : list document) : list document :=
  match l with
  | [] => [d]
  | x :: r =>
      if (count x <? count d)%Z then d :: x :: r
      else x :: insert_desc d r
  end.

Definition orderDesc_count (docs : list document) : list document :=
  fold_right insert_desc [] docs.

(** [listDocuments(DATABASE_ID, COLLECTION_ID, [Query.equal('searchTerm', term)])] *)
Definition listDocuments_equal (term : string) : M (list document) :=
  transport ;;
  fun w => (Ok (matching term (store w)), w).

(** [listDocuments(DATABASE_ID, COLLECTION_ID, [Query.limit(5), Query.orderDesc("count")])] *)
Definition listDocuments_top : M (list document) :=
  transport ;;
  fun w => (Ok (firstn 5 (orderDesc_count (store w))), w).

(** The document with identifier [i] gets the count [c]; its other fields
    stay.  [None] when the store has no such document. *)
Fixpoint set_count (i : nat) (c : Z) (docs : list document)
  : option (list document) :=
  match docs with
  | [] => None
  | d :: r =>
      if doc_id d =? i then
        Some ({| doc_id := doc_id d; searchTerm := searchTerm d; count := c;
                 movie_id := movie_id d; poster_url := poster_url d |} :: r)
      else
        match set_count i c r with
        | Some r' => Some (d :: r')
        | None => None
        end
  end%nat.

(** [updateDocument(DATABASE_ID, COLLECTION_ID, id, { count: c })] *)
Definition updateDocument_count (i : nat) (c : Z) : M unit :=
  transport ;;
  fun w =>
    match set_count i c (store w) with
    | Some docs => put_store docs (next_id w) w
    | None => (Throw (AppwriteException "document not found"), w)
    end.

(** [createDocument(DATABASE_ID, COLLECTION_ID, ID.unique(), {...})]: the
    store picks an identifier that no document has. *)
Definition createDocument (term : string) (c : Z) (mid : Z) (poster : string)
  : M unit :=
  transport ;;
  fun w =>
    put_store
      (store w ++ [{| doc_id := next_id w; searchTerm := term; count := c;
                      movie_id := mid; poster_url := poster |}])
      (S (next_id w)) w.

(* ===================================================================== *)
(** * appwrite.js *)
(* ===================================================================== *)

(** String conversion inside a template literal. *)
Definition template_string (v : option string) : string :=
  match v with
  | Some s => s
  | None => "null"
  end.

(** [movie.id] and [movie.poster_path] raise when [movie] is [undefined]. *)
Definition deref (movie : option Movie) : M Movie :=
  match movie with
  | Some m => ret m
  | None => throw (JsTypeError "Cannot read properties of undefined")
  end.

Definition updateSearchCount (term : string) (movie : option Movie) : M unit :=
  emit (Called_updateSearchCount term movie) ;;
  try_catch
    (result <- listDocuments_equal term ;;
     match result with
     | doc :: _ =>
         updateDocument_count (doc_id doc) (count doc + 1)
     | [] =>
         m <- deref movie ;;
         createDocument term 1 (movie_id_of m)
           ("https://image.tmdb.org/t/p/w500" ++ template_string (poster_path m))
     end)
    (fun error => console_error "Error updating search count:" error).

(** The handler has no [return]: after a failure the function's value is
    [undefined]. *)
Definition getTrendingMovies : M (option (list document)) :=
  try_catch
    (result <- listDocuments_top ;;
     ret (Some result))
    (fun error =>
       console_error "Error fetching trending movies:" error ;;
       ret None).

(* ===================================================================== *)
(** * App.jsx *)
(* ===================================================================== *)

(** The characters [encodeURIComponent] leaves alone:
    letters, digits and [- _ . ! ~ * ' ( )]. *)
Definition unreserved (c : ascii) : bool :=
  let n := nat_of_ascii c in
  ((65 <=? n) && (n <=? 90)
   || (97 <=? n) && (n <=? 122)
   || (48 <=? n) && (n <=? 57)
   || existsb (Nat.eqb n) [45; 95; 46; 33; 126; 42; 39; 40; 41])%nat.

Definition hex_digit (n : nat) : ascii :=
  nth n ["0"; "1"; "2"; "3"; "4"; "5"; "6"; "7"; "8"; "9";
         "A"; "B"; "C"; "D"; "E"; "F"]%char "0"%char.

(** Every other octet becomes [%XX]. *)
Definition escape_octet (c : ascii) : string :=
  let n := nat_of_ascii c in
  String "%" (String (hex_digit (n / 16)) (String (hex_digit (n mod 16)) "")).

(** The escaping of a string octet by octet. *)
Fixpoint escape_octets (s : string) : string :=
  match s with
  | EmptyString => ""
  | String c r =>
      (if unreserved c then String c "" else escape_octet c)
        ++ escape_octets r
  end.

(** A surrogate without a partner: the octet ED followed by an octet of
    A0..BF. *)
Fixpoint unpaired_surrogate (s : string) : bool :=
  match s with
  | EmptyString => false
  | String c r =>
      (nat_of_ascii c =? 237)%nat
      && match r with
         | String d _ =>
             ((160 <=? nat_of_ascii d) && (nat_of_ascii d <=? 191))%nat
         | EmptyString => false
         end
      || unpaired_surrogate r
  end.

(** [encodeURIComponent(s)] raises on a surrogate without a partner and
    escapes every other string. *)
Definition encodeURIComponent (s : string) : result string :=
  if unpaired_surrogate s then Throw (JsURIError "URI malformed")
  else Ok (escape_octets s).

(** The outcome of an expression, in a computation. *)
Definition lift {A} (r : result A) : M A := fun w => (r, w).

(** A string is truthy when it is not empty. *)
Definition nonempty (s : string) : bool := negb (s =? "").

Definition search_endpoint : string :=
  "https://api.themoviedb.org/3/search/movie?query=".

Definition discover_endpoint : string :=
  "https://api.themoviedb.org/3/discover/movie".

(** [fetch(endpoint, API_OPTIONS)] against a network that answers [net]. *)
Definition fetch (net : fetch_outcome) (endpoint : string) : M response :=
  emit (Fetch endpoint) ;;
  match net with
  | FetchRejects e => throw e
  | FetchResolves r => ret r
  end.

(** [response.json()] *)
Definition response_json (r : response) : M payload :=
  match json r with
  | JsonRejects e => throw e
  | JsonResolves data => ret data
  end.

(** [data.results.length] *)
Definition results_length (r : option (list Movie)) : M nat :=
  match r with
  | Some l => ret (length l)
  | None =>
      throw (JsTypeError "Cannot read properties of undefined (reading 'length')")
  end.

(** [data.results[0]] *)
Definition results_first (r : option (list Movie)) : M (option Movie) :=
  match r with
  | Some l => ret (nth_error l 0)
  | None =>
      throw (JsTypeError "Cannot read properties of undefined (reading '0')")
  end.

(** [data.results || []] *)
Definition results_or_empty (r : option (list Movie)) : list Movie :=
  match r with
  | Some l => l
  | None => []
  end.

Definition fetchMovies (net : fetch_outcome) (query : string) : M unit :=
  set (SetIsLoading true) ;;
  set (SetErrorMessage (JStr "")) ;;
  endpoint <- (if nonempty query
               then escaped <- lift (encodeURIComponent query) ;;
                    ret (search_endpoint ++ escaped)
               else ret discover_endpoint) ;;
  try_finally
    (try_catch
       (response <- fetch net endpoint ;;
        (if negb (ok response)
         then throw (JsError "Failed to fetch movies")
         else ret tt) ;;
        data <- response_json response ;;
        if strict_eq_string (Response data) "false" then
          set (SetErrorMessage
                 (js_or (Error data) (JStr "Failed to fetch movies"))) ;;
          set (SetMovieList [])
        else
          set (SetMovieList (results_or_empty (results data))) ;;
          go <- (if nonempty query
                 then n <- results_length (results data) ;; ret (0 <? n)%nat
                 else ret false) ;;
          if go then
            try_catch
              (first <- results_first (results data) ;;
               updateSearchCount query first)
              (fun err => console_warn "Failed to update search count:" err)
          else ret tt)
       (fun error =>
          console_error "Error fetching movies:" error ;;
          set (SetErrorMessage
                 (JStr "Error fetching movies. Please try again later."))))
    (set (SetIsLoading false)).

Definition loadTrendingMovies : M unit :=
  set (SetIsTrendingLoading true) ;;
  try_finally
    (try_catch
       (movies <- getTrendingMovies ;;
        set (SetTtendingMovies movies))
       (fun error => console_error "Error fetching trending movies:" error))
    (set (SetIsTrendingLoading false)).

(** ** What the component renders *)

Inductive trending_view : Type :=
| TrendingSpinner
| TrendingList (l : list document)
| TrendingNothing.

(** [isTrendingLoading ? <Spinner/> : trandingMovies.length > 0 && (...)] *)
Definition render_trending (s : state) : result trending_view :=
  if isTrendingLoading s then Ok TrendingSpinner
  else
    match trandingMovies s with
    | None =>
        Throw (JsTypeError "Cannot read properties of undefined (reading 'length')")
    | Some l =>
        if (0 <? length l)%nat then Ok (TrendingList l) else Ok TrendingNothing
    end.

Inductive movies_view : Type :=
| MoviesSpinner
| MoviesError (text : string)
| MoviesList (l : list Movie).

(** The text React puts on the page for a child [{v}]: a string as it is,
    a number in decimal, nothing for [undefined], [null] and the booleans,
    the children of an array one after the other; an object is not a
    valid child and rendering raises. *)
Fixpoint child_text (v : jsval) : result string :=
  match v with
  | JUndefined | JNull | JBool _ => Ok ""
  | JNum n => Ok (NilZero.string_of_int (Z.to_int n))
  | JStr s => Ok s
  | JArr elems =>
      (fix children (l : list jsval) : result string :=
         match l with
         | [] => Ok ""
         | x :: r =>
             match child_text x, children r with
             | Ok a, Ok b => Ok (a ++ b)
             | Throw e, _ => Throw e
             | _, Throw e => Throw e
             end
         end) elems
  | JObj _ => Throw (JsError "Objects are not valid as a React child")
  end.

(** [isLoading ? <Spinner/> : errorMessage ? <p>{errorMessage}</p> : <ul>...] *)
Definition render_movies (s : state) : result movies_view :=
  if isLoading s then Ok MoviesSpinner
  else if truthy (errorMessage s) then
    match child_text (errorMessage s) with
    | Ok text => Ok (MoviesError text)
    | Throw e => Throw e
    end
  else Ok (MoviesList (movieList s)).

(* ===================================================================== *)
(** * Vocabulary of the statements *)
(* ===================================================================== *)

Local Open Scope list_scope.

(** Identifiers are unique and older than the next one handed out. *)
Definition store_wf (docs : list document) (next : nat) : Prop :=
  NoDup (map doc_id docs) /\ Forall (fun d => doc_id d < next) docs.

(** The coming [n] database calls go through. *)
Definition calls_succeed (n : nat) (fs : list bool) : bool :=
  forallb negb (firstn n fs).

(** [doc] with another count. *)
Definition with_count (doc : document) (c : Z) : document :=
  {| doc_id := doc_id doc; searchTerm := searchTerm doc; count := c;
     movie_id := movie_id doc; poster_url := poster_url doc |}.

(** The document [createDocument] writes for a first search. *)
Definition new_record (i : nat) (term : string) (m : Movie) : document :=
  {| doc_id := i; searchTerm := term; count := 1;
     movie_id := movie_id_of m;
     poster_url :=
       ("https://image.tmdb.org/t/p/w500" ++ template_string (poster_path m))%string |}.

(** Console output, as opposed to a state update, a fetch or a call. *)
Definition is_console (e : event) : bool :=
  match e with
  | Console _ _ _ => true
  | _ => false
  end.

Arguments updateSearchCount : simpl never.

(** The calls to [updateSearchCount] in a log, the most recent first. *)
Fixpoint calls (t : list event) : list (string * option Movie) :=
  match t with
  | [] => []
  | Called_updateSearchCount term first :: r => (term, first) :: calls r
  | _ :: r => calls r
  end.

(** The endpoints fetched in a log, the most recent first. *)
Fixpoint fetches (t : list event) : list string :=
  match t with
  | [] => []
  | Fetch endpoint :: r => endpoint :: fetches r
  | _ :: r => fetches r
  end.

(** The state updates in a log, the most recent first. *)
Fixpoint updates (t : list event) : list update :=
  match t with
  | [] => []
  | Update u :: r => u :: updates r
  | _ :: r => updates r
  end.

(** The message of the [catch] block of [fetchMovies]. *)
Definition generic_error : jsval :=
  JStr "Error fetching movies. Please try again later.".

(** The text of [generic_error]. *)
Definition generic_error_text : string :=
  "Error fetching movies. Please try again later.".

(** The endpoint [fetchMovies] picks for a query it can escape. *)
Definition endpoint_of (query : string) : string :=
  if nonempty query
  then (search_endpoint ++ escape_octets query)%string
  else discover_endpoint.

(** The fetch is rejected, the status is not a success, or the body does
    not parse: the three ways into the [catch] block before any payload is
    looked at. *)
Inductive thrown : fetch_outcome -> exn -> Prop :=
| thrown_network e : thrown (FetchRejects e) e
| thrown_status j :
    thrown (FetchResolves {| ok := false; json := j |})
           (JsError "Failed to fetch movies")
| thrown_parse e :
    thrown (FetchResolves {| ok := true; json := JsonRejects e |}) e.

(** The fetch succeeded and the body parsed to [data]. *)
Definition delivers (net : fetch_outcome) (data : payload) : Prop :=
  net = FetchResolves {| ok := true; json := JsonResolves data |}.

(** An operation reports failure when its caller sees an exception. *)
Definition reports_failure {A} (op : M A) (w : world) : Prop :=
  exists e, fst (op w) = Throw e.

(** ** Sample data *)

Definition batman : Movie :=
  {| movie_id_of := 1; title := "Batman"; poster_path := Some "/x.jpg" |}.

Definition joker : Movie :=
  {| movie_id_of := 2; title := "Joker"; poster_path := None |}.

(** A body without an in-band status. *)
Definition body (r : option (list Movie)) : payload :=
  {| Response := JUndefined; Error := JUndefined; results := r |}.

Definition answers (data : payload) : fetch_outcome :=
  FetchResolves {| ok := true; json := JsonResolves data |}.

(** HTTP 500 *)
Definition server_error : fetch_outcome :=
  FetchResolves
    {| ok := false; json := JsonRejects (JsSyntaxError "Unexpected token") |}.

(** The application as it starts, over an empty collection. *)
Definition fresh_world : world :=
  {| ui := initial_state; store := []; next_id := 0; faults := [];
     trace := [] |}.

(** The same, with a transport that fails the coming database call. *)
Definition offline_world : world :=
  {| ui := initial_state; store := []; next_id := 0; faults := [true];
     trace := [] |}.

(** After one search for batman that went well. *)
Definition batman_shown : world :=
  snd (fetchMovies (answers (body (Some [batman]))) "batman" fresh_world).

(** The document of a first search for batman. *)
Definition batman_record : document :=
  {| doc_id := 0; searchTerm := "batman"; count := 1; movie_id := 1;
     poster_url := "https://image.tmdb.org/t/p/w500/x.jpg" |}.

(** A store that knows batman, and a transport that lets the lookup
    through and fails the write. *)
Definition write_fails_world : world :=
  {| ui := initial_state; store := [batman_record]; next_id := 1;
     faults := [false; true]; trace := [] |}.

(** A store that knows batman, and a transport that works. *)
Definition batman_known : world :=
  {| ui := initial_state; store := [batman_record]; next_id := 1;
     faults := []; trace := [] |}.

(** ** Further vocabulary *)

(** [a] may stand before [b] in a list ordered by falling count. *)
Definition count_desc (a b : document) : Prop := (count b <= count a)%Z.

(** At most one document per search term. *)
Definition one_per_term (docs : list document) : Prop :=
  NoDup (map searchTerm docs).

(** Every count is at least one. *)
Definition counts_positive (docs : list document) : Prop :=
  Forall (fun d => (1 <= count d)%Z) docs.

(** What a store built by [updateSearchCount] alone satisfies. *)
Definition store_ok (docs : list document) (next : nat) : Prop :=
  store_wf docs next /\ one_per_term docs /\ counts_positive docs.

(** No failure of the transport is to come. *)
Definition transport_works (fs : list bool) : bool := forallb negb fs.

(** [n] calls of [updateSearchCount] in a row, as [n] searches for one term
    with one first result make them. *)
Fixpoint updateSearchCount_times (n : nat) (term : string) (m : Movie)
  : M unit :=
  match n with
  | O => ret tt
  | S k => updateSearchCount term (Some m) ;; updateSearchCount_times k term m
  end.

(** The [console.warn] entries of a log. *)
Definition is_warning (e : event) : bool :=
  match e with
  | Console LevelWarn _ _ => true
  | _ => false
  end.

(** The characters of a string. *)
Fixpoint chars (s : string) : list ascii :=
  match s with
  | EmptyString => []
  | String c r => c :: chars r
  end.

(** The value of a hexadecimal digit as [hex_digit] writes it. *)
Definition hex_value (c : ascii) : nat :=
  let n := nat_of_ascii c in
  if (n <? 58)%nat then n - 48 else n - 55.

(** Whether an octet is a hexadecimal digit as [hex_digit] writes it. *)
Definition is_hex (c : ascii) : bool :=
  let n := nat_of_ascii c in
  ((48 <=? n) && (n <=? 57) || (65 <=? n) && (n <=? 70))%nat.

(** The reading of an escaped string, by the words of the claim and not
    by the code: [%XX] stands for the octet with that hexadecimal value,
    every other octet for itself; a percent sign that is not followed by
    two hexadecimal digits has no reading. *)
Fixpoint percent_decode (s : string) : option string :=
  match s with
  | EmptyString => Some EmptyString
  | String c r =>
      if (c =? "%")%char then
        match r with
        | String h (String l r') =>
            if is_hex h && is_hex l then
              option_map
                (String (ascii_of_nat (16 * hex_value h + hex_value l)))
                (percent_decode r')
            else None
        | _ => None
        end
      else option_map (String c) (percent_decode r)
  end.

(** The high surrogate U+D800 on its own, as half an emoji pasted into the
    input leaves it: octets ED A0 80. *)
Definition lone_surrogate : string :=
  String (ascii_of_nat 237) (String (ascii_of_nat 160)
    (String (ascii_of_nat 128) EmptyString)).

(** A collection of six terms. *)
Definition record (i : nat) (term : string) (c : Z) : document :=
  {| doc_id := i; searchTerm := term; count := c; movie_id := Z.of_nat i;
     poster_url := "https://image.tmdb.org/t/p/w500/x.jpg" |}.

Definition six_records : list document :=
  [record 0 "batman" 3; record 1 "joker" 7; record 2 "alien" 1;
   record 3 "heat" 7; record 4 "up" 2; record 5 "dune" 5].

Definition busy_world : world :=
  {| ui := initial_state; store := six_records; next_id := 6; faults := [];
     trace := [] |}.

(* ===================================================================== *)
(** * The store and its invariant *)
(* ===================================================================== *)

Section StoreFacts.

Variable term : string.

Lemma matching_app (l1 l2 : list document) :
  matching term (l1 ++ l2) = matching term l1 ++ matching term l2.
Proof. apply filter_app. Qed.

Lemma matching_none_iff (docs : list document) :
  matching term docs = [] <->
  forall d, In d docs -> searchTerm d <> term.
Proof.
  unfold matching. induction docs as [|d r IH]; simpl.
  - split; [intros _ x [] | reflexivity].
  - destruct (String.eqb_spec (searchTerm d) term) as [E|E].
    + split; [discriminate|]. intros H. exfalso. apply (H d); auto.
    + rewrite IH. split.
      * intros H x [<-|Hx]; auto.
      * intros H x Hx. apply H. now right.
Qed.

(** The first match splits the store: nothing before it matches. *)
Lemma matching_first (docs : list document) (doc : document)
      (rest : list document) :
  matching term docs = doc :: rest ->
  exists l1 l2,
    docs = l1 ++ doc :: l2 /\ matching term l1 = [] /\
    searchTerm doc = term /\ matching term l2 = rest.
Proof.
  unfold matching. induction docs as [|d r IH]; simpl; [discriminate|].
  destruct (String.eqb_spec (searchTerm d) term) as [E|E].
  - intros H. injection H as -> Hr. exists [], r. simpl. auto.
  - intros H. destruct (IH H) as (l1 & l2 & -> & H1 & H2 & H3).
    exists (d :: l1), l2. simpl.
    destruct (String.eqb_spec (searchTerm d) term); [contradiction|]. auto.
Qed.

Lemma set_count_at (l1 l2 : list document) (doc : document) (c : Z) :
  ~ In (doc_id doc) (map doc_id l1) ->
  set_count (doc_id doc) c (l1 ++ doc :: l2)
  = Some (l1 ++ with_count doc c :: l2).
Proof.
  induction l1 as [|d r IH]; simpl; intros H.
  - now rewrite Nat.eqb_refl.
  - destruct (Nat.eqb_spec (doc_id d) (doc_id doc)) as [E|E].
    + exfalso. apply H. now left.
    + rewrite IH; [reflexivity|]. intros Hin. apply H. now right.
Qed.

Lemma store_wf_first (l1 l2 : list document) (doc : document) (next : nat) :
  store_wf (l1 ++ doc :: l2) next ->
  ~ In (doc_id doc) (map doc_id l1).
Proof.
  intros [H _]. rewrite map_app in H. simpl in H.
  apply NoDup_remove_2 in H. intros Hin. apply H.
  apply in_or_app. now left.
Qed.

Lemma store_wf_fresh (docs : list document) (next : nat) :
  store_wf docs next -> ~ In next (map doc_id docs).
Proof.
  intros [_ H] Hin. apply in_map_iff in Hin as (d & E & Hd).
  rewrite Forall_forall in H. specialize (H d Hd). lia.
Qed.

Lemma store_wf_with_count (l1 l2 : list document) (doc : document)
      (c : Z) (next : nat) :
  store_wf (l1 ++ doc :: l2) next ->
  store_wf (l1 ++ with_count doc c :: l2) next.
Proof.
  intros [H1 H2]. split.
  - rewrite map_app in *. exact H1.
  - rewrite Forall_app in *. destruct H2 as [Ha Hb]. split; [exact Ha|].
    inversion Hb; subst. constructor; assumption.
Qed.

Lemma store_wf_create (docs : list document) (next : nat) (d : document) :
  store_wf docs next -> doc_id d = next ->
  store_wf (docs ++ [d]) (S next).
Proof.
  intros Hwf E. pose proof (store_wf_fresh _ _ Hwf) as Hfresh.
  destruct Hwf as [H1 H2]. split.
  - rewrite map_app. simpl. rewrite E. apply NoDup_app.
    + exact H1.
    + constructor; [intros []|constructor].
    + intros a Ha [<-|[]]. contradiction.
  - rewrite Forall_app. split.
    + eapply Forall_impl; [|exact H2]. simpl. intros; lia.
    + constructor; [lia|constructor].
Qed.

End StoreFacts.

(* ===================================================================== *)
(** * Facts about appwrite.js *)
(* ===================================================================== *)

(** Unfolds one operation of the store on a world given by its fields. *)
Ltac run_store :=
  unfold updateSearchCount, getTrendingMovies, listDocuments_equal,
    listDocuments_top, updateDocument_count, createDocument, deref,
    console_error, console_warn, put_store, transport, try_catch,
    bind, ret, throw, emit; cbn.

(** Closes one case of [updateSearchCount_outcome]: nothing was logged, or
    one error was. *)
Ltac close_outcome :=
  eexists;
  first
    [ exists []; cbn;
      split; [reflexivity|]; split; [reflexivity|]; split; [reflexivity|];
      split; [left; reflexivity|];
      intros Hmv Hf; first [discriminate Hf | now contradiction Hmv]
    | eexists [_]; cbn;
      split; [reflexivity|]; split; [reflexivity|]; split; [reflexivity|];
      split; [right; eexists; repeat split; reflexivity|];
      intros Hmv Hf;
      first [discriminate Hf | now contradiction Hmv
            | repeat split; reflexivity] ].

(** [updateSearchCount] returns normally whatever the store and the
    transport do.  It leaves React state alone; after the call it logs at
    most one error, and then the store is what it was.  When one of its two
    database calls fails in the transport, that error is logged. *)
Lemma updateSearchCount_outcome (term : string) (mv : option Movie) (w : world) :
  exists w' logs,
    updateSearchCount term mv w = (Ok tt, w') /\
    ui w' = ui w /\
    trace w' = logs ++ Called_updateSearchCount term mv :: trace w /\
    (logs = [] \/
     exists e,
       logs = [Console LevelError "Error updating search count:" e] /\
       store w' = store w /\ next_id w' = next_id w) /\
    (mv <> None -> calls_succeed 2 (faults w) = false ->
     logs = [Console LevelError "Error updating search count:"
               (AppwriteException "request failed")] /\
     store w' = store w /\ next_id w' = next_id w).
Proof.
  destruct w as [u st nx fs tr]. unfold calls_succeed. run_store.
  destruct fs as [|[] fs]; cbn.
  - destruct (matching term st) as [|doc rest]; cbn.
    + destruct mv as [m|]; cbn; close_outcome.
    + destruct (set_count _ _ st); cbn; close_outcome.
  - close_outcome.
  - destruct (matching term st) as [|doc rest]; cbn.
    + destruct mv as [m|]; cbn; [|close_outcome].
      destruct fs as [|[] fs]; cbn; close_outcome.
    + destruct fs as [|[] fs]; cbn; try close_outcome;
        destruct (set_count _ _ st); cbn; close_outcome.
Qed.

Lemma updateSearchCount_returns (term : string) (mv : option Movie) (w : world) :
  exists w' evs,
    updateSearchCount term mv w = (Ok tt, w') /\
    ui w' = ui w /\
    trace w' = evs ++ Called_updateSearchCount term mv :: trace w /\
    forallb is_console evs = true.
Proof.
  destruct (updateSearchCount_outcome term mv w)
    as (w' & logs & E & Hui & Htr & [->|(e & -> & _)] & _);
    exists w'; eexists; (split; [exact E|]); (split; [exact Hui|]);
    (split; [exact Htr|reflexivity]).
Qed.

(** A term the store knows: the first matching document is the only thing
    that can change, and only in its count. *)
Lemma updateSearchCount_found (term : string) (mv : option Movie) (w : world)
      (doc : document) (rest : list document) :
  store_wf (store w) (next_id w) ->
  matching term (store w) = doc :: rest ->
  exists l1 l2,
    let w' := snd (updateSearchCount term mv w) in
    store w = l1 ++ doc :: l2 /\
    matching term l1 = [] /\
    next_id w' = next_id w /\
    (store w' = store w \/
     store w' = l1 ++ with_count doc (count doc + 1) :: l2) /\
    (calls_succeed 2 (faults w) = true ->
     store w' = l1 ++ with_count doc (count doc + 1) :: l2 /\
     faults w' = skipn 2 (faults w)).
Proof.
  intros Hwf Hm.
  destruct (matching_first _ _ _ _ Hm) as (l1 & l2 & Hs & Hl1 & _ & _).
  exists l1, l2.
  destruct w as [u st nx fs tr]. cbn in Hwf, Hm, Hs. subst st.
  pose proof (store_wf_first _ _ _ _ Hwf) as Hfirst.
  pose proof (set_count_at l1 l2 doc (count doc + 1) Hfirst) as Hset.
  unfold calls_succeed. run_store.
  destruct fs as [|[] fs]; cbn; rewrite ?Hm; cbn;
    try (destruct fs as [|[] fs]; cbn); rewrite ?Hset; cbn;
    repeat split; auto; discriminate.
Qed.

(** A term the store does not know, and a transport that works: one
    document is appended. *)
Lemma updateSearchCount_fresh (term : string) (m : Movie) (w : world) :
  matching term (store w) = [] ->
  calls_succeed 2 (faults w) = true ->
  let w' := snd (updateSearchCount term (Some m) w) in
  store w' = store w ++ [new_record (next_id w) term m] /\
  next_id w' = S (next_id w) /\
  faults w' = skipn 2 (faults w).
Proof.
  intros Hm. destruct w as [u st nx fs tr]. cbn in Hm.
  unfold calls_succeed. run_store.
  destruct fs as [|[] fs]; cbn; rewrite ?Hm; cbn;
    try (destruct fs as [|[] fs]; cbn);
    repeat split; auto; discriminate.
Qed.

(** The invariant of the store survives every call. *)
Lemma updateSearchCount_wf (term : string) (mv : option Movie) (w : world) :
  store_wf (store w) (next_id w) ->
  let w' := snd (updateSearchCount term mv w) in
  store_wf (store w') (next_id w').
Proof.
  intros Hwf. destruct (matching term (store w)) as [|doc rest] eqn:Hm.
  - destruct w as [u st nx fs tr]. cbn in Hwf, Hm. run_store.
    destruct fs as [|[] fs]; cbn; rewrite ?Hm; cbn; auto;
      destruct mv as [m|]; cbn; auto;
      try (destruct fs as [|[] fs]; cbn); auto;
      apply store_wf_create; auto.
  - destruct (updateSearchCount_found term mv w doc rest Hwf Hm)
      as (l1 & l2 & Hs & _ & Hn & [H|H] & _); cbv zeta; rewrite Hn, H; auto.
    rewrite Hs in Hwf. now apply store_wf_with_count.
Qed.

(** [getTrendingMovies] returns normally too: the documents when the call
    went through, [undefined] after logging when it did not. *)
Lemma getTrendingMovies_returns (w : world) :
  exists w',
    ui w' = ui w /\ store w' = store w /\ next_id w' = next_id w /\
    ((hd false (faults w) = false /\
      getTrendingMovies w
      = (Ok (Some (firstn 5 (orderDesc_count (store w)))), w') /\
      trace w' = trace w)
     \/
     (hd false (faults w) = true /\
      getTrendingMovies w = (Ok None, w') /\
      trace w'
      = Console LevelError "Error fetching trending movies:"
          (AppwriteException "request failed") :: trace w)).
Proof.
  destruct w as [u st nx fs tr]. run_store.
  destruct fs as [|[] fs]; cbn; eexists; cbn;
    (repeat split; [..|(left + right); repeat split; reflexivity]);
    reflexivity.
Qed.

(** The trending load cycle, whatever the transport does: it returns, the
    flag is down at the end, and the state holds what [getTrendingMovies]
    gave back. *)
Lemma loadTrendingMovies_returns (w : world) :
  exists w',
    loadTrendingMovies w = (Ok tt, w') /\
    isTrendingLoading (ui w') = false /\
    (exists evs, trace w' = Update (SetIsTrendingLoading false) :: evs) /\
    trandingMovies (ui w')
    = (if hd false (faults w) then None
       else Some (firstn 5 (orderDesc_count (store w)))).
Proof.
  destruct w as [u st nx fs tr].
  unfold loadTrendingMovies, try_finally, set. run_store.
  destruct fs as [|[] fs]; cbn; eexists; repeat split;
    try reflexivity; eexists; reflexivity.
Qed.

(* ===================================================================== *)
(** * Facts about App.jsx *)
(* ===================================================================== *)

Lemma calls_console (evs t : list event) :
  forallb is_console evs = true -> calls (evs ++ t) = calls t.
Proof.
  induction evs as [|[] evs IH]; cbn; auto; discriminate.
Qed.

Lemma fetches_console (evs t : list event) :
  forallb is_console evs = true -> fetches (evs ++ t) = fetches t.
Proof.
  induction evs as [|[] evs IH]; cbn; auto; discriminate.
Qed.

(** Unfolds one search cycle on a world given by its fields. *)
Ltac run_fetch :=
  unfold fetchMovies, try_finally, try_catch, bind, lift, set, fetch,
    response_json, results_length, results_first, console_error,
    console_warn, emit, ret, throw; cbn.

(** The same for a query that [encodeURIComponent] accepts, given by [Hq];
    the two goals are the non-empty and the empty query. *)
Ltac run_fetch_escaped Hq Hne :=
  unfold endpoint_of, fetchMovies, encodeURIComponent; rewrite Hq;
  destruct (nonempty _) eqn:Hne; run_fetch.

(** Replaces the call to [updateSearchCount] in the goal by its outcome. *)
Ltac step_updateSearchCount w' evs E Hui Htr Hev :=
  match goal with
  | |- context [updateSearchCount ?t ?m ?w] =>
      destruct (updateSearchCount_returns t m w)
        as (w' & evs & E & Hui & Htr & Hev);
      rewrite E; cbn in Hui, Htr; cbn
  end.

(** A cycle that ends in the [catch] block before any payload is looked at:
    the message is set, the list is what it was. *)
Lemma fetchMovies_thrown (net : fetch_outcome) (e : exn) (query : string)
      (w : world) :
  unpaired_surrogate query = false ->
  thrown net e ->
  exists w',
    fetchMovies net query w = (Ok tt, w') /\
    errorMessage (ui w') = generic_error /\
    movieList (ui w') = movieList (ui w) /\
    isLoading (ui w') = false /\
    trace w'
    = [Update (SetIsLoading false);
       Update (SetErrorMessage generic_error);
       Console LevelError "Error fetching movies:" e;
       Fetch (endpoint_of query);
       Update (SetErrorMessage (JStr ""));
       Update (SetIsLoading true)] ++ trace w.
Proof.
  intros Hq H. destruct w as [u st nx fs tr].
  destruct H; run_fetch_escaped Hq Hne; eexists; repeat split; reflexivity.
Qed.

(** A cycle whose payload signals failure in band. *)
Lemma fetchMovies_in_band (net : fetch_outcome) (data : payload)
      (query : string) (w : world) :
  unpaired_surrogate query = false ->
  delivers net data ->
  strict_eq_string (Response data) "false" = true ->
  exists w',
    fetchMovies net query w = (Ok tt, w') /\
    errorMessage (ui w') = js_or (Error data) (JStr "Failed to fetch movies") /\
    movieList (ui w') = [] /\
    isLoading (ui w') = false /\
    trace w'
    = [Update (SetIsLoading false);
       Update (SetMovieList []);
       Update (SetErrorMessage
                 (js_or (Error data) (JStr "Failed to fetch movies")));
       Fetch (endpoint_of query);
       Update (SetErrorMessage (JStr ""));
       Update (SetIsLoading true)] ++ trace w.
Proof.
  intros Hq -> H. destruct w as [u st nx fs tr].
  run_fetch_escaped Hq Hne; rewrite H; cbn; eexists; repeat split;
    reflexivity.
Qed.

(** A cycle whose payload does not signal failure: the list is stored, and
    what follows depends on the query and on [results]. *)
Lemma fetchMovies_delivered (net : fetch_outcome) (data : payload)
      (query : string) (w : world) :
  unpaired_surrogate query = false ->
  delivers net data ->
  strict_eq_string (Response data) "false" = false ->
  exists w' evs,
    fetchMovies net query w = (Ok tt, w') /\
    movieList (ui w') = results_or_empty (results data) /\
    isLoading (ui w') = false /\
    trace w'
    = Update (SetIsLoading false) :: evs
        ++ [Update (SetMovieList (results_or_empty (results data)));
            Fetch (endpoint_of query);
            Update (SetErrorMessage (JStr ""));
            Update (SetIsLoading true)] ++ trace w /\
    match nonempty query, results data with
    | false, _ | true, Some [] =>
        evs = [] /\ errorMessage (ui w') = JStr ""
    | true, None =>
        evs = [Update (SetErrorMessage generic_error);
               Console LevelError "Error fetching movies:"
                 (JsTypeError
                    "Cannot read properties of undefined (reading 'length')")]
        /\ errorMessage (ui w') = generic_error
    | true, Some (m :: _) =>
        (exists logs,
            evs = logs ++ [Called_updateSearchCount query (Some m)] /\
            forallb is_console logs = true)
        /\ errorMessage (ui w') = JStr ""
    end.
Proof.
  intros Hq -> H. destruct w as [u st nx fs tr].
  run_fetch_escaped Hq Hne; rewrite H; cbn.
  - destruct (results data) as [[|m l]|] eqn:Hr; cbn.
    + eexists; exists []; repeat split; reflexivity.
    + step_updateSearchCount w' logs E Hui Htr Hev.
      exists (let (u', st', nx', fs', tr') := w' in
              {| ui := apply_update (SetIsLoading false) u'; store := st';
                 next_id := nx'; faults := fs';
                 trace := Update (SetIsLoading false) :: tr' |}).
      exists (logs ++ [Called_updateSearchCount query (Some m)]).
      destruct w' as [u' st' nx' fs' tr']. cbn in *. subst u' tr'.
      rewrite <- !app_assoc. cbn.
      repeat split; try reflexivity. exists logs. auto.
    + eexists; eexists; repeat split; reflexivity.
  - eexists; exists []; repeat split; reflexivity.
Qed.

Lemma fetch_outcome_cases (net : fetch_outcome) :
  (exists e, thrown net e) \/ (exists data, delivers net data).
Proof.
  destruct net as [e|[[] [e|data]]]; unfold delivers; eauto using thrown.
Qed.

(* ===================================================================== *)
(** * Two runs *)
(* ===================================================================== *)

(** The first search for batman: the list is shown and the record is
    created. *)
Example batman_scenario :
  store batman_shown = [batman_record] /\
  movieList (ui batman_shown) = [batman].
Proof. split; reflexivity. Qed.

Example encodeURIComponent_examples :
  encodeURIComponent "batman" = Ok "batman" /\
  encodeURIComponent "star wars" = Ok "star%20wars" /\
  encodeURIComponent "a&b=c/d?e" = Ok "a%26b%3Dc%2Fd%3Fe" /\
  encodeURIComponent "-_.!~*'()" = Ok "-_.!~*'()" /\
  encodeURIComponent lone_surrogate = Throw (JsURIError "URI malformed").
Proof. repeat split; reflexivity. Qed.

(** What the page shows for a message that is not a string. *)
Example child_text_examples :
  child_text (JStr "no results") = Ok "no results" /\
  child_text (JNum 404) = Ok "404" /\
  child_text (JBool true) = Ok "" /\
  child_text (JArr [JStr "a"; JNull; JNum 1]) = Ok "a1" /\
  child_text (JObj [("code", JNum 7)])
  = Throw (JsError "Objects are not valid as a React child").
Proof. repeat split; reflexivity. Qed.

(* ===================================================================== *)
(** * The search cycle: failures of the catalogue *)
(* ===================================================================== *)

(** C1.  The claim is that every failure of the catalogue fetch empties
    [movieList] and sets a message.  At a non-success status the code does
    set the message but leaves the list of the search before: with batman
    on display, a cycle answered by HTTP 500 ends with batman still in
    [movieList].  (The branch for an in-band failure, next to it, does
    empty the list.) *)
Theorem fetch_failure_keeps_previous_results :
  let w' := snd (fetchMovies server_error "joker" batman_shown) in
  movieList (ui batman_shown) = [batman] /\
  thrown server_error (JsError "Failed to fetch movies") /\
  fst (fetchMovies server_error "joker" batman_shown) = Ok tt /\
  errorMessage (ui w') = generic_error /\
  render_movies (ui w') = Ok (MoviesError generic_error_text) /\
  movieList (ui w') = [batman] /\
  movieList (ui w') <> [].
Proof.
  cbv zeta. repeat split; try reflexivity.
  - constructor.
  - discriminate.
Qed.




(* ===================================================================== *)
(** * The store operations and their failures *)
(* ===================================================================== *)

(** C2 as stated fails: with the transport down, neither operation raises
    anything its caller could see. *)
Lemma store_failure_is_not_reported :
  hd false (faults offline_world) = true /\
  ~ reports_failure (updateSearchCount "batman" (Some batman)) offline_world /\
  ~ reports_failure getTrendingMovies offline_world.
Proof.
  split; [reflexivity|]. split; intros [e H]; discriminate H.
Qed.

(** C2, amended.  Neither store operation reports failure to its caller.
    When the transport fails one of the database calls of
    [updateSearchCount], or the call of [getTrendingMovies], the operation
    catches the exception itself, logs it with [console.error] and returns
    normally, leaving React state as it was. *)
Theorem store_failures_are_logged_and_swallowed
        (term : string) (m : Movie) (w1 w2 : world) :
  calls_succeed 2 (faults w1) = false ->
  calls_succeed 1 (faults w2) = false ->
  (exists w',
      updateSearchCount term (Some m) w1 = (Ok tt, w') /\
      ~ reports_failure (updateSearchCount term (Some m)) w1 /\
      ui w' = ui w1 /\
      trace w'
      = Console LevelError "Error updating search count:"
          (AppwriteException "request failed")
          :: Called_updateSearchCount term (Some m) :: trace w1)
  /\
  (exists r w',
      getTrendingMovies w2 = (Ok r, w') /\
      ~ reports_failure getTrendingMovies w2 /\
      ui w' = ui w2 /\
      trace w'
      = Console LevelError "Error fetching trending movies:"
          (AppwriteException "request failed") :: trace w2).
Proof.
  intros H1 H2. split.
  - destruct (updateSearchCount_outcome term (Some m) w1)
      as (w' & logs & E & Hui & Htr & _ & Hfail).
    destruct (Hfail ltac:(discriminate) H1) as (-> & Hst & _).
    exists w'. repeat split; auto.
    intros [e He]. rewrite E in He. discriminate He.
  - destruct (getTrendingMovies_returns w2)
      as (w' & Hui & Hst & _ & [(Hf & _)|(Hf & E & Htr)]).
    + exfalso. unfold calls_succeed in H2.
      destruct (faults w2) as [|[] fs]; cbn in *; discriminate.
    + exists None, w'. repeat split; auto.
      intros [e He]. rewrite E in He. discriminate He.
Qed.

Lemma store_failures_are_logged_and_swallowed_witness :
  calls_succeed 2 (faults write_fails_world) = false /\
  calls_succeed 1 (faults offline_world) = false /\
  fst (updateSearchCount "batman" (Some joker) write_fails_world) = Ok tt /\
  ui (snd (updateSearchCount "batman" (Some joker) write_fails_world))
  = initial_state /\
  (exists r, fst (getTrendingMovies offline_world) = Ok r).
Proof.
  split; [reflexivity|]. split; [reflexivity|].
  destruct (store_failures_are_logged_and_swallowed
              "batman" joker write_fails_world offline_world
              eq_refl eq_refl)
    as [(w' & E & _ & Hui & _) (r & w'' & E' & _)].
  rewrite E, E'. cbn. rewrite Hui.
  split; [reflexivity|]. split; [reflexivity|]. exists r. reflexivity.
Defined.

(** C3.  The claim is that a failed trending load is only logged and leaves
    the trending state as it was.  With the transport down,
    [getTrendingMovies] logs and returns [undefined], [loadTrendingMovies]
    stores that value over the list, and rendering the trending section
    then raises on [trandingMovies.length].  The flag is cleared, as
    claimed. *)
Theorem failed_trending_load_stores_undefined :
  let w' := snd (loadTrendingMovies offline_world) in
  trandingMovies (ui offline_world) = Some [] /\
  fst (getTrendingMovies offline_world) = Ok None /\
  fst (loadTrendingMovies offline_world) = Ok tt /\
  trandingMovies (ui w') = None /\
  isTrendingLoading (ui w') = false /\
  updates (trace w')
  = [SetIsTrendingLoading false; SetTtendingMovies None;
     SetIsTrendingLoading true] /\
  render_trending (ui offline_world) = Ok TrendingNothing /\
  render_trending (ui w')
  = Throw (JsTypeError
             "Cannot read properties of undefined (reading 'length')").
Proof. cbv zeta. repeat split; reflexivity. Qed.

(* ===================================================================== *)
(** * Recording a search *)
(* ===================================================================== *)

(** C4.  With a working transport, [updateSearchCount] looks the term up by
    equality on [searchTerm].  When a document matches, the first one gets
    its count raised by one; when none does, one document is appended with
    count 1, the movie's id, and the image host's prefix followed by the
    movie's poster path.  A second call for a term that was new finds that
    document and leaves it as the only match, with count 2. *)
Theorem updateSearchCount_increments_or_creates
        (term : string) (m : Movie) (w : world) :
  store_wf (store w) (next_id w) ->
  calls_succeed 2 (faults w) = true ->
  let w1 := snd (updateSearchCount term (Some m) w) in
  let w2 := snd (updateSearchCount term (Some m) w1) in
  match matching term (store w) with
  | doc :: _ =>
      exists l1 l2,
        store w = l1 ++ doc :: l2 /\
        matching term l1 = [] /\
        searchTerm doc = term /\
        store w1
        = l1 ++ {| doc_id := doc_id doc; searchTerm := searchTerm doc;
                   count := count doc + 1;
                   movie_id := movie_id doc;
                   poster_url := poster_url doc |} :: l2
  | [] =>
      let created :=
        {| doc_id := next_id w; searchTerm := term; count := 1;
           movie_id := movie_id_of m;
           poster_url :=
             ("https://image.tmdb.org/t/p/w500"
                ++ match poster_path m with
                   | Some path => path
                   | None => "null"
                   end)%string |} in
      store w1 = store w ++ [created] /\
      (calls_succeed 2 (faults w1) = true ->
       store w2 = store w ++ [with_count created 2] /\
       matching term (store w2) = [with_count created 2])
  end.
Proof.
  intros Hwf Hf. cbv zeta.
  destruct (matching term (store w)) as [|doc rest] eqn:Hm.
  - destruct (updateSearchCount_fresh term m w Hm Hf) as (Hst & Hnx & _).
    cbv zeta in Hst, Hnx. split; [exact Hst|]. intros Hf2.
    pose proof (updateSearchCount_wf term (Some m) w Hwf) as Hwf1.
    cbv zeta in Hwf1.
    set (w1 := snd (updateSearchCount term (Some m) w)) in *.
    assert (Hne : matching term (store w1) = [new_record (next_id w) term m]).
    { rewrite Hst, matching_app, Hm. unfold matching. cbn.
      now rewrite String.eqb_refl. }
    destruct (updateSearchCount_found term (Some m) w1 _ _ Hwf1 Hne)
      as (l1 & l2 & Hs & Hl1 & _ & _ & Hgo).
    destruct (Hgo Hf2) as [Hst2 _].
    assert (Hl : l1 = store w /\ l2 = []).
    { rewrite Hst in Hs. destruct l2 as [|x l2].
      - apply app_inj_tail in Hs. destruct Hs as [Hs _]. now split.
      - exfalso.
        destruct (@exists_last _ (x :: l2) ltac:(discriminate))
          as (l2' & y & Hl2).
        rewrite Hl2 in Hs.
        change (l1 ++ new_record (next_id w) term m :: l2' ++ [y])
          with (l1 ++ (new_record (next_id w) term m :: l2') ++ [y]) in Hs.
        rewrite app_assoc in Hs. apply app_inj_tail in Hs.
        destruct Hs as [Hs _].
        apply (proj1 (matching_none_iff term (store w)) Hm
                 (new_record (next_id w) term m)); [|reflexivity].
        rewrite Hs. apply in_or_app. right. now left. }
    destruct Hl as [-> ->]. rewrite Hst2. split; [reflexivity|].
    rewrite matching_app, Hm. unfold matching. cbn.
    now rewrite String.eqb_refl.
  - destruct (updateSearchCount_found term (Some m) w doc rest Hwf Hm)
      as (l1 & l2 & Hs & Hl1 & _ & _ & Hgo).
    destruct (Hgo Hf) as [Hst _].
    destruct (matching_first _ _ _ _ Hm) as (_ & _ & _ & _ & Hterm & _).
    exists l1, l2. repeat split; auto.
Qed.

Lemma store_wf_nil (next : nat) : store_wf [] next.
Proof. split; constructor. Qed.

Lemma store_wf_single (d : document) (next : nat) :
  doc_id d < next -> store_wf [d] next.
Proof.
  intros H. split.
  - cbn. constructor; [intros []|constructor].
  - constructor; [exact H|constructor].
Qed.

Lemma updateSearchCount_increments_or_creates_witness :
  let w1 := snd (updateSearchCount "batman" (Some batman) fresh_world) in
  let w2 := snd (updateSearchCount "batman" (Some batman) w1) in
  store_wf (store fresh_world) (next_id fresh_world) /\
  calls_succeed 2 (faults fresh_world) = true /\
  store w1 = [batman_record] /\
  matching "batman" (store w2) = [with_count batman_record 2].
Proof.
  cbv zeta.
  split; [apply store_wf_nil|]. split; [reflexivity|].
  pose proof (updateSearchCount_increments_or_creates
                "batman" batman fresh_world (store_wf_nil 0) eq_refl) as H.
  cbv zeta in H.
  change (matching "batman" (store fresh_world)) with (@nil document) in H.
  destruct H as [H1 H2]. split; [exact H1|].
  exact (proj2 (H2 eq_refl)).
Defined.

(** C9.  When [updateSearchCount] finds a document for the term, that
    document keeps its identifier, [searchTerm], [movie_id] and
    [poster_url], every other document stays as it is and none is added,
    whatever movie the call was given and whatever the transport does; the
    count stays or goes up by one, and goes up when the transport works. *)
Theorem updateSearchCount_existing_frame
        (term : string) (mv : option Movie) (w : world)
        (doc : document) (rest : list document) :
  store_wf (store w) (next_id w) ->
  matching term (store w) = doc :: rest ->
  let w' := snd (updateSearchCount term mv w) in
  exists l1 l2 doc',
    store w = l1 ++ doc :: l2 /\
    store w' = l1 ++ doc' :: l2 /\
    doc_id doc' = doc_id doc /\
    searchTerm doc' = searchTerm doc /\
    movie_id doc' = movie_id doc /\
    poster_url doc' = poster_url doc /\
    (count doc' = count doc \/ count doc' = (count doc + 1)%Z) /\
    (calls_succeed 2 (faults w) = true -> count doc' = (count doc + 1)%Z).
Proof.
  intros Hwf Hm. cbv zeta.
  destruct (updateSearchCount_found term mv w doc rest Hwf Hm)
    as (l1 & l2 & Hs & _ & _ & Hst & Hgo).
  cbv zeta in Hst, Hgo. exists l1, l2.
  destruct (calls_succeed 2 (faults w)) eqn:Hf.
  - destruct (Hgo eq_refl) as [Hst' _].
    exists (with_count doc (count doc + 1)). rewrite Hst'.
    cbn. repeat split; auto.
  - destruct Hst as [Hst|Hst].
    + exists doc. rewrite Hst. repeat split; auto. discriminate.
    + exists (with_count doc (count doc + 1)). rewrite Hst.
      cbn. repeat split; auto.
Qed.

Lemma updateSearchCount_existing_frame_witness :
  let w' := snd (updateSearchCount "batman" (Some joker) batman_known) in
  store_wf (store batman_known) (next_id batman_known) /\
  matching "batman" (store batman_known) = [batman_record] /\
  exists l1 l2 doc',
    store batman_known = l1 ++ batman_record :: l2 /\
    store w' = l1 ++ doc' :: l2 /\
    doc_id doc' = 0 /\
    searchTerm doc' = "batman" /\
    movie_id doc' = 1%Z /\
    poster_url doc' = "https://image.tmdb.org/t/p/w500/x.jpg" /\
    (count doc' = 1%Z \/ count doc' = 2%Z) /\
    (calls_succeed 2 (faults batman_known) = true -> count doc' = 2%Z).
Proof.
  cbv zeta.
  assert (Hwf : store_wf (store batman_known) (next_id batman_known))
    by (apply store_wf_single; cbn; lia).
  split; [exact Hwf|]. split; [reflexivity|].
  exact (updateSearchCount_existing_frame
           "batman" (Some joker) batman_known batman_record []
           Hwf eq_refl).
Defined.

(* ===================================================================== *)
(** * Facts about escaping *)
(* ===================================================================== *)

Lemma chars_app (a b : string) : chars (a ++ b) = chars a ++ chars b.
Proof. induction a as [|c a IH]; cbn; [reflexivity|now rewrite IH]. Qed.

Lemma hex_digit_unreserved (k : nat) : unreserved (hex_digit k) = true.
Proof.
  unfold hex_digit.
  do 16 (destruct k as [|k]; [reflexivity|]). destruct k; reflexivity.
Qed.

Lemma hex_value_digit (k : nat) : k < 16 -> hex_value (hex_digit k) = k.
Proof.
  intros H. do 16 (destruct k as [|k]; [reflexivity|]). lia.
Qed.

Lemma percent_reserved : unreserved "%" = false.
Proof. reflexivity. Qed.

Lemma escape_octet_inj (a b : ascii) :
  escape_octet a = escape_octet b -> a = b.
Proof.
  unfold escape_octet. intros H.
  assert (Hhi : hex_digit (nat_of_ascii a / 16)
                = hex_digit (nat_of_ascii b / 16)) by congruence.
  assert (Hlo : hex_digit (nat_of_ascii a mod 16)
                = hex_digit (nat_of_ascii b mod 16)) by congruence.
  pose proof (nat_ascii_bounded a) as Ha.
  pose proof (nat_ascii_bounded b) as Hb.
  assert (Hq : nat_of_ascii a / 16 = nat_of_ascii b / 16).
  { rewrite <- (hex_value_digit (nat_of_ascii a / 16)),
            <- (hex_value_digit (nat_of_ascii b / 16)).
    - now rewrite Hhi.
    - apply Nat.Div0.div_lt_upper_bound; lia.
    - apply Nat.Div0.div_lt_upper_bound; lia. }
  assert (Hr : nat_of_ascii a mod 16 = nat_of_ascii b mod 16).
  { rewrite <- (hex_value_digit (nat_of_ascii a mod 16)),
            <- (hex_value_digit (nat_of_ascii b mod 16)).
    - now rewrite Hlo.
    - apply Nat.mod_upper_bound; lia.
    - apply Nat.mod_upper_bound; lia. }
  assert (Hn : nat_of_ascii a = nat_of_ascii b).
  { rewrite (Nat.div_mod_eq (nat_of_ascii a) 16),
            (Nat.div_mod_eq (nat_of_ascii b) 16). now rewrite Hq, Hr. }
  rewrite <- (ascii_nat_embedding a), <- (ascii_nat_embedding b).
  now rewrite Hn.
Qed.

Lemma escape_octets_inj (s1 : string) :
  forall s2, escape_octets s1 = escape_octets s2 -> s1 = s2.
Proof.
  induction s1 as [|a r1 IH]; intros [|b r2]; cbn; intros H.
  - reflexivity.
  - destruct (unreserved b); discriminate H.
  - destruct (unreserved a); discriminate H.
  - destruct (unreserved a) eqn:Ha, (unreserved b) eqn:Hb;
      unfold escape_octet in H; cbn [append] in H.
    + injection H as -> H. now rewrite (IH r2 H).
    + assert (Hp : a = "%"%char) by congruence.
      rewrite Hp, percent_reserved in Ha. discriminate Ha.
    + assert (Hp : b = "%"%char) by congruence.
      rewrite Hp, percent_reserved in Hb. discriminate Hb.
    + assert (He : escape_octet a = escape_octet b)
        by (unfold escape_octet; congruence).
      assert (Ht : escape_octets r1 = escape_octets r2)
        by congruence.
      now rewrite (escape_octet_inj a b He), (IH r2 Ht).
Qed.

Lemma hex_digit_is_hex (k : nat) : k < 16 -> is_hex (hex_digit k) = true.
Proof.
  intros H. do 16 (destruct k as [|k]; [reflexivity|]). lia.
Qed.

(** The alphabet of an escaped string. *)
Lemma escape_octets_safe (s : string) :
  Forall (fun c => unreserved c = true \/ c = "%"%char)
         (chars (escape_octets s)) /\
  forall c, In c [" "; "&"; "="; "?"; "#"; "/"; "+"]%char ->
            ~ In c (chars (escape_octets s)).
Proof.
  assert (H : Forall (fun c => unreserved c = true \/ c = "%"%char)
                     (chars (escape_octets s))).
  { induction s as [|c r IH]; cbn; [constructor|].
    rewrite chars_app, Forall_app. split; [|exact IH].
    destruct (unreserved c) eqn:Hc; unfold escape_octet; cbn [chars].
    - constructor; [now left|constructor].
    - constructor; [now right|].
      constructor; [left; apply hex_digit_unreserved|].
      constructor; [left; apply hex_digit_unreserved|constructor]. }
  split; [exact H|].
  intros c Hc Hin. rewrite Forall_forall in H.
  destruct (H c Hin) as [Hu | ->];
    cbn in Hc; intuition (subst; discriminate).
Qed.

(** Reading an escaped string gives the string back. *)
Lemma percent_decode_escape_octets (s : string) :
  percent_decode (escape_octets s) = Some s.
Proof.
  induction s as [|c r IH]; [reflexivity|].
  cbn [escape_octets]. destruct (unreserved c) eqn:Hc.
  - cbn [append percent_decode].
    destruct (Ascii.eqb_spec c "%") as [->|_].
    + rewrite percent_reserved in Hc. discriminate Hc.
    + now rewrite IH.
  - unfold escape_octet. cbn [append percent_decode].
    rewrite Ascii.eqb_refl.
    pose proof (nat_ascii_bounded c) as Hb.
    assert (Hhi : nat_of_ascii c / 16 < 16)
      by (apply Nat.Div0.div_lt_upper_bound; lia).
    assert (Hlo : nat_of_ascii c mod 16 < 16)
      by (apply Nat.mod_upper_bound; lia).
    rewrite !hex_digit_is_hex, !hex_value_digit by assumption.
    cbn [andb]. rewrite IH. cbn [option_map].
    rewrite <- (Nat.div_mod_eq (nat_of_ascii c) 16).
    now rewrite ascii_nat_embedding.
Qed.

Lemma unpaired_surrogate_nonempty (s : string) :
  unpaired_surrogate s = true -> nonempty s = true.
Proof. destruct s; [discriminate|reflexivity]. Qed.

(** A query with a surrogate that has no partner: the escaping raises
    before the [try], so neither the [catch] nor the [finally] block runs
    and the exception leaves the function. *)
Lemma fetchMovies_malformed (net : fetch_outcome) (query : string) (w : world) :
  unpaired_surrogate query = true ->
  fetchMovies net query w
  = (Throw (JsURIError "URI malformed"),
     {| ui := apply_update (SetErrorMessage (JStr ""))
                (apply_update (SetIsLoading true) (ui w));
        store := store w; next_id := next_id w; faults := faults w;
        trace := Update (SetErrorMessage (JStr ""))
                   :: Update (SetIsLoading true) :: trace w |}).
Proof.
  intros Hq. pose proof (unpaired_surrogate_nonempty _ Hq) as Hne.
  unfold fetchMovies, encodeURIComponent. rewrite Hq, Hne.
  reflexivity.
Qed.

(* ===================================================================== *)
(** * The search cycle *)
(* ===================================================================== *)

(** Every cycle whose query can be escaped returns, and its log is the old
    log with the cycle's actions in front: the flag goes down last, and
    there is one fetch. *)
Lemma fetchMovies_returns (net : fetch_outcome) (query : string) (w : world) :
  unpaired_surrogate query = false ->
  exists w' evs,
    fetchMovies net query w = (Ok tt, w') /\
    isLoading (ui w') = false /\
    trace w' = Update (SetIsLoading false) :: evs ++ trace w /\
    fetches evs = [endpoint_of query].
Proof.
  intros Hq.
  destruct (fetch_outcome_cases net) as [(e & H)|(data & H)].
  - destruct (fetchMovies_thrown net e query w Hq H)
      as (w' & E & _ & _ & Hl & Htr).
    exists w'. eexists [_; _; _; _; _].
    repeat split; [exact E|exact Hl|exact Htr|reflexivity].
  - destruct (strict_eq_string (Response data) "false") eqn:Hs.
    + destruct (fetchMovies_in_band net data query w Hq H Hs)
        as (w' & E & _ & _ & Hl & Htr).
      exists w'. eexists [_; _; _; _; _].
      repeat split; [exact E|exact Hl|exact Htr|reflexivity].
    + destruct (fetchMovies_delivered net data query w Hq H Hs)
        as (w' & evs & E & _ & Hl & Htr & Hcase).
      exists w'. eexists. rewrite app_assoc in Htr.
      repeat split; [exact E|exact Hl|exact Htr|].
      destruct (nonempty query), (results data) as [[|m l]|];
        try (destruct Hcase as [-> _]; reflexivity).
      destruct Hcase as [(logs & -> & Hlogs) _].
      rewrite <- app_assoc. now rewrite fetches_console.
Qed.

(** C5.  In a cycle whose catalogue call is made (the query can be
    escaped), succeeds and whose payload does not signal failure, the
    calls to [updateSearchCount] are: one, with the
    query and the first result, when the query is not empty and the list
    stored in [movieList] is not empty; none when the list is empty; none
    when the query is empty. *)
Theorem fetchMovies_records_search
        (net : fetch_outcome) (data : payload) (query : string) (w : world) :
  unpaired_surrogate query = false ->
  delivers net data ->
  strict_eq_string (Response data) "false" = false ->
  let w' := snd (fetchMovies net query w) in
  exists evs,
    trace w' = evs ++ trace w /\
    movieList (ui w') = results_or_empty (results data) /\
    calls evs
    = match movieList (ui w') with
      | first :: _ => if query =? "" then [] else [(query, Some first)]
      | [] => []
      end.
Proof.
  intros Hq Hd Hs. cbv zeta.
  destruct (fetchMovies_delivered net data query w Hq Hd Hs)
    as (w' & evs & E & Hlist & _ & Htr & Hcase).
  rewrite E. cbn. eexists. split; [|split; [exact Hlist|]].
  - rewrite Htr. rewrite app_comm_cons, app_assoc. reflexivity.
  - rewrite Hlist. unfold nonempty in Hcase.
    destruct (query =? "")%string; cbn in Hcase.
    + destruct Hcase as [-> _]. cbn.
      destruct (results_or_empty (results data)); reflexivity.
    + destruct (results data) as [[|m l]|]; cbn.
      * destruct Hcase as [-> _]. reflexivity.
      * destruct Hcase as [(logs & -> & Hlogs) _].
        rewrite <- app_assoc. now rewrite calls_console.
      * destruct Hcase as [-> _]. reflexivity.
Qed.

Lemma fetchMovies_records_search_witness :
  let data := body (Some [batman; joker]) in
  let w' := snd (fetchMovies (answers data) "batman" fresh_world) in
  unpaired_surrogate "batman" = false /\
  delivers (answers data) data /\
  strict_eq_string (Response data) "false" = false /\
  exists evs,
    trace w' = evs ++ trace fresh_world /\
    movieList (ui w') = [batman; joker] /\
    calls evs = [("batman", Some batman)].
Proof.
  cbv zeta. split; [reflexivity|]. split; [reflexivity|].
  split; [reflexivity|].
  exact (fetchMovies_records_search
           (answers (body (Some [batman; joker])))
           (body (Some [batman; joker])) "batman" fresh_world
           eq_refl eq_refl eq_refl).
Defined.

Lemma search_differs_from_discover (s : string) :
  (search_endpoint ++ s)%string <> discover_endpoint.
Proof. cbn. discriminate. Qed.

(** C7 as stated fails: for a query that holds a surrogate without a
    partner the escaping raises and no endpoint is fetched at all. *)
Lemma lone_surrogate_is_not_fetched :
  let r := fetchMovies (answers (body (Some [batman]))) lone_surrogate
             fresh_world in
  lone_surrogate <> "" /\
  fst r = Throw (JsURIError "URI malformed") /\
  fetches (trace (snd r)) = [].
Proof. cbv zeta. repeat split; try reflexivity. discriminate. Qed.

(** C7, amended.  A cycle whose query holds no surrogate without a partner
    fetches once.  The endpoint is the discover endpoint exactly when the
    query is empty; for any other query it is the search endpoint followed
    by what [encodeURIComponent] returns for the query, and that is the
    query escaped for a URL: it consists of letters, digits, the marks
    [- _ . ! ~ * ' ( )] and percent signs only, none of the characters
    that delimit a URL is in it, and reading every [%XX] as the octet it
    names gives the query back. *)
Theorem fetchMovies_endpoint (net : fetch_outcome) (query : string) (w : world) :
  unpaired_surrogate query = false ->
  exists evs endpoint,
    trace (snd (fetchMovies net query w)) = evs ++ trace w /\
    fetches evs = [endpoint] /\
    (endpoint = discover_endpoint <-> query = "") /\
    (query <> "" ->
     exists escaped,
       encodeURIComponent query = Ok escaped /\
       endpoint = (search_endpoint ++ escaped)%string /\
       Forall (fun c => unreserved c = true \/ c = "%"%char)
              (chars escaped) /\
       (forall c, In c [" "; "&"; "="; "?"; "#"; "/"; "+"]%char ->
                  ~ In c (chars escaped)) /\
       percent_decode escaped = Some query).
Proof.
  intros Hu.
  destruct (fetchMovies_returns net query w Hu)
    as (w' & evs & E & _ & Htr & Hf).
  rewrite E. cbn. exists (Update (SetIsLoading false) :: evs).
  exists (endpoint_of query). split; [exact Htr|]. split; [exact Hf|].
  unfold endpoint_of, nonempty.
  destruct (String.eqb_spec query "") as [->|Hq]; cbn.
  - split; [tauto|]. intros H. now contradiction H.
  - split.
    + split; [|contradiction].
      intros H. exfalso. exact (search_differs_from_discover _ H).
    + intros _. exists (escape_octets query).
      unfold encodeURIComponent. rewrite Hu.
      split; [reflexivity|]. split; [reflexivity|].
      split; [exact (proj1 (escape_octets_safe query))|].
      split; [exact (proj2 (escape_octets_safe query))|].
      apply percent_decode_escape_octets.
Qed.

Lemma fetchMovies_endpoint_witness :
  unpaired_surrogate "a&b c" = false /\
  exists evs,
    trace (snd (fetchMovies server_error "a&b c" fresh_world))
    = evs ++ trace fresh_world /\
    fetches evs
    = ["https://api.themoviedb.org/3/search/movie?query=a%26b%20c"] /\
    percent_decode "a%26b%20c" = Some "a&b c".
Proof.
  split; [reflexivity|].
  destruct (fetchMovies_endpoint server_error "a&b c" fresh_world eq_refl)
    as (evs & endpoint & Htr & Hf & _ & Hs).
  destruct (Hs ltac:(discriminate)) as (escaped & He & -> & _ & _ & Hd).
  injection He as <-.
  exists evs. split; [exact Htr|]. split; [exact Hf|exact Hd].
Defined.

(** C8.  The claim is that every cycle, on every exit, clears [isLoading]
    last.  The query is escaped before the [try]: for a query that holds a
    surrogate without a partner, with batman on display, the escaping
    raises after [isLoading] was set, the [finally] block is not reached,
    and the cycle ends with [isLoading] still set and the spinner on the
    page. *)
Theorem malformed_query_leaves_isLoading_set :
  let r := fetchMovies (answers (body (Some [joker]))) lone_surrogate
             batman_shown in
  isLoading (ui batman_shown) = false /\
  unpaired_surrogate lone_surrogate = true /\
  fst r = Throw (JsURIError "URI malformed") /\
  isLoading (ui (snd r)) = true /\
  trace (snd r)
  = [Update (SetErrorMessage (JStr "")); Update (SetIsLoading true)]
      ++ trace batman_shown /\
  render_movies (ui (snd r)) = Ok MoviesSpinner.
Proof. cbv zeta. repeat split; reflexivity. Qed.

(** C10.  A payload that parsed (the query could be escaped and the call
    was made), does not signal failure and has no [results]: the empty
    list is stored.  With a non-empty query the
    reading of [length] then raises; the [catch] block logs it and sets the
    generic message, and [updateSearchCount] is not called.  With an empty
    query nothing is read and no message is set. *)
Theorem fetchMovies_missing_results
        (net : fetch_outcome) (data : payload) (query : string) (w : world) :
  unpaired_surrogate query = false ->
  delivers net data ->
  strict_eq_string (Response data) "false" = false ->
  results data = None ->
  let w' := snd (fetchMovies net query w) in
  fst (fetchMovies net query w) = Ok tt /\
  movieList (ui w') = [] /\
  (query <> "" ->
   errorMessage (ui w') = generic_error /\
   trace w'
   = [Update (SetIsLoading false);
      Update (SetErrorMessage generic_error);
      Console LevelError "Error fetching movies:"
        (JsTypeError "Cannot read properties of undefined (reading 'length')");
      Update (SetMovieList []);
      Fetch (search_endpoint ++ escape_octets query)%string;
      Update (SetErrorMessage (JStr ""));
      Update (SetIsLoading true)] ++ trace w) /\
  (query = "" ->
   errorMessage (ui w') = JStr "" /\
   trace w'
   = [Update (SetIsLoading false);
      Update (SetMovieList []);
      Fetch discover_endpoint;
      Update (SetErrorMessage (JStr ""));
      Update (SetIsLoading true)] ++ trace w).
Proof.
  intros Hu Hd Hs Hr. cbv zeta.
  destruct (fetchMovies_delivered net data query w Hu Hd Hs)
    as (w' & evs & E & Hlist & _ & Htr & Hcase).
  rewrite E. cbn. rewrite Hr in *. cbn in Hlist, Htr.
  unfold endpoint_of, nonempty in *.
  split; [reflexivity|]. split; [exact Hlist|].
  destruct (String.eqb_spec query "") as [->|Hq]; cbn in *.
  - destruct Hcase as [-> Hmsg]. split; [intros H; now contradiction H|].
    intros _. split; [exact Hmsg|exact Htr].
  - destruct Hcase as [-> Hmsg]. split; [|contradiction].
    intros _. split; [exact Hmsg|exact Htr].
Qed.

Lemma fetchMovies_missing_results_witness :
  let w' := snd (fetchMovies (answers (body None)) "batman" batman_shown) in
  unpaired_surrogate "batman" = false /\
  delivers (answers (body None)) (body None) /\
  strict_eq_string (Response (body None)) "false" = false /\
  results (body None) = None /\
  movieList (ui w') = [] /\
  errorMessage (ui w') = generic_error /\
  calls (trace w') = calls (trace batman_shown).
Proof.
  cbv zeta. split; [reflexivity|]. split; [reflexivity|].
  split; [reflexivity|]. split; [reflexivity|].
  destruct (fetchMovies_missing_results
              (answers (body None)) (body None) "batman" batman_shown
              eq_refl eq_refl eq_refl eq_refl)
    as (_ & Hlist & Hne & _).
  destruct (Hne ltac:(discriminate)) as [Hmsg Htr].
  split; [exact Hlist|]. split; [exact Hmsg|].
  rewrite Htr. reflexivity.
Defined.


(* ===================================================================== *)
(** * The trending list *)
(* ===================================================================== *)

Lemma insert_desc_perm (d : document) (l : list document) :
  Permutation (insert_desc d l) (d :: l).
Proof.
  induction l as [|x r IH]; cbn; [reflexivity|].
  destruct (count x <? count d)%Z; [reflexivity|].
  rewrite IH. apply perm_swap.
Qed.

Lemma orderDesc_count_perm (docs : list document) :
  Permutation (orderDesc_count docs) docs.
Proof.
  induction docs as [|d r IH]; cbn; [reflexivity|].
  rewrite insert_desc_perm. now constructor.
Qed.

Lemma insert_desc_sorted (d : document) (l : list document) :
  StronglySorted count_desc l -> StronglySorted count_desc (insert_desc d l).
Proof.
  induction l as [|x r IH]; cbn; intros Hs.
  - constructor; constructor.
  - apply StronglySorted_inv in Hs. destruct Hs as [Hr Hx].
    destruct (Z.ltb_spec (count x) (count d)) as [Hlt|Hge].
    + constructor; [constructor; assumption|].
      constructor; [unfold count_desc; lia|].
      eapply Forall_impl; [|exact Hx]. unfold count_desc. intros; lia.
    + constructor; [auto|].
      rewrite Forall_forall in *. intros y Hy.
      apply (Permutation_in _ (insert_desc_perm d r)) in Hy.
      destruct Hy as [<-|Hy]; [unfold count_desc; lia|auto].
Qed.

Lemma orderDesc_count_sorted (docs : list document) :
  StronglySorted count_desc (orderDesc_count docs).
Proof.
  induction docs as [|d r IH]; cbn; [constructor|].
  now apply insert_desc_sorted.
Qed.

(** A sorted list cut in two: the front is sorted and stands before the
    back. *)
Lemma sorted_cut (l1 l2 : list document) :
  StronglySorted count_desc (l1 ++ l2) ->
  StronglySorted count_desc l1 /\
  forall x y, In x l1 -> In y l2 -> count_desc x y.
Proof.
  induction l1 as [|a r IH]; cbn; intros Hs.
  - split; [constructor|intros x y []].
  - apply StronglySorted_inv in Hs. destruct Hs as [Hr Ha].
    destruct (IH Hr) as [Hs1 Hxy]. rewrite Forall_app in Ha.
    destruct Ha as [Ha1 Ha2]. split; [constructor; assumption|].
    intros x y [<-|Hx] Hy; [|auto].
    rewrite Forall_forall in Ha2. auto.
Qed.

(** X1.  When the transport lets the call through, [getTrendingMovies]
    returns the five documents with the highest counts, highest first (all
    of them when the store has fewer): the list is ordered by falling
    count, it is drawn from the store without repetition, and no document
    left out has a higher count than one that is in.  The store is not
    changed. *)
Theorem getTrendingMovies_top_five (w : world) :
  hd false (faults w) = false ->
  exists top rest w',
    getTrendingMovies w = (Ok (Some top), w') /\
    store w' = store w /\
    length top = Nat.min 5 (length (store w)) /\
    StronglySorted count_desc top /\
    Permutation (top ++ rest) (store w) /\
    forall x d, In x top -> In d rest -> (count d <= count x)%Z.
Proof.
  intros Hf.
  destruct (getTrendingMovies_returns w)
    as (w' & _ & Hst & _ & [(_ & E & _)|(Hf' & _)]);
    [|rewrite Hf in Hf'; discriminate].
  exists (firstn 5 (orderDesc_count (store w))),
         (skipn 5 (orderDesc_count (store w))), w'.
  pose proof (orderDesc_count_sorted (store w)) as Hs.
  rewrite <- (firstn_skipn 5 (orderDesc_count (store w))) in Hs.
  destruct (sorted_cut _ _ Hs) as [Hs1 Hcut].
  repeat split; auto.
  - rewrite length_firstn.
    now rewrite (Permutation_length (orderDesc_count_perm (store w))).
  - rewrite firstn_skipn. apply orderDesc_count_perm.
Qed.

Lemma getTrendingMovies_top_five_witness :
  hd false (faults busy_world) = false /\
  exists top rest w',
    getTrendingMovies busy_world = (Ok (Some top), w') /\
    store w' = six_records /\
    length top = 5 /\
    StronglySorted count_desc top /\
    Permutation (top ++ rest) six_records /\
    forall x d, In x top -> In d rest -> (count d <= count x)%Z.
Proof.
  split; [reflexivity|].
  exact (getTrendingMovies_top_five busy_world eq_refl).
Defined.

(** X2.  A trending load over a working transport ends with the top list in
    the trending state and the flag down, and the trending section then
    renders without raising: the list when it has entries, nothing when the
    collection is empty.  At most five entries are shown. *)
Theorem loadTrendingMovies_shows_top (w : world) :
  hd false (faults w) = false ->
  exists top w',
    loadTrendingMovies w = (Ok tt, w') /\
    fst (getTrendingMovies w) = Ok (Some top) /\
    trandingMovies (ui w') = Some top /\
    isTrendingLoading (ui w') = false /\
    length top <= 5 /\
    render_trending (ui w')
    = Ok (match top with
          | [] => TrendingNothing
          | _ :: _ => TrendingList top
          end).
Proof.
  intros Hf.
  destruct (loadTrendingMovies_returns w) as (w' & E & Hflag & _ & Htr).
  destruct (getTrendingMovies_returns w)
    as (w1 & _ & _ & _ & [(_ & E1 & _)|(Hf' & _)]);
    [|rewrite Hf in Hf'; discriminate].
  rewrite Hf in Htr.
  exists (firstn 5 (orderDesc_count (store w))), w'.
  rewrite E1. repeat split; auto.
  - apply firstn_le_length.
  - unfold render_trending. rewrite Hflag, Htr.
    destruct (firstn 5 (orderDesc_count (store w))); reflexivity.
Qed.

Lemma loadTrendingMovies_shows_top_witness :
  hd false (faults busy_world) = false /\
  render_trending (ui (snd (loadTrendingMovies busy_world)))
  = Ok (TrendingList
          [record 3 "heat" 7; record 1 "joker" 7; record 5 "dune" 5;
           record 0 "batman" 3; record 4 "up" 2]).
Proof.
  split; [reflexivity|].
  destruct (loadTrendingMovies_shows_top busy_world eq_refl)
    as (top & w' & E & Etop & _ & _ & _ & Hr).
  rewrite E. cbn [snd]. rewrite Hr.
  injection Etop as <-. reflexivity.
Defined.

(* ===================================================================== *)
(** * What a recorded search does to the collection *)
(* ===================================================================== *)

(** The three things [updateSearchCount] can do to the collection: leave
    it, raise the count of the first match, append a record. *)
Lemma updateSearchCount_store (term : string) (mv : option Movie) (w : world) :
  store_wf (store w) (next_id w) ->
  let w' := snd (updateSearchCount term mv w) in
  (store w' = store w /\ next_id w' = next_id w)
  \/
  (exists doc l1 l2,
      store w = l1 ++ doc :: l2 /\ matching term l1 = [] /\
      searchTerm doc = term /\
      store w' = l1 ++ with_count doc (count doc + 1) :: l2 /\
      next_id w' = next_id w)
  \/
  (exists m,
      mv = Some m /\ matching term (store w) = [] /\
      store w' = store w ++ [new_record (next_id w) term m] /\
      next_id w' = S (next_id w)).
Proof.
  intros Hwf. cbv zeta.
  destruct (matching term (store w)) as [|doc rest] eqn:Hm.
  - destruct w as [u st nx fs tr]. cbn in Hwf, Hm. run_store.
    destruct fs as [|[] fs]; cbn; rewrite ?Hm; cbn; auto;
      destruct mv as [m|]; cbn; auto;
      try (destruct fs as [|[] fs]; cbn); auto;
      right; right; exists m; auto.
  - destruct (updateSearchCount_found term mv w doc rest Hwf Hm)
      as (l1 & l2 & Hs & Hl1 & Hn & [H|H] & _); cbv zeta in Hn, H.
    + left. auto.
    + right. left. exists doc, l1, l2.
      destruct (matching_first _ _ _ _ Hm) as (_ & _ & _ & _ & Ht & _).
      auto.
Qed.

Lemma matching_none_not_in (term : string) (docs : list document) :
  matching term docs = [] -> ~ In term (map searchTerm docs).
Proof.
  intros Hm Hin. apply in_map_iff in Hin as (d & E & Hd).
  exact (proj1 (matching_none_iff term docs) Hm d Hd E).
Qed.

Lemma NoDup_snoc {A} (l : list A) (a : A) :
  NoDup l -> ~ In a l -> NoDup (l ++ [a]).
Proof.
  intros Hl Ha. apply NoDup_app; auto.
  - constructor; [intros []|constructor].
  - intros x Hx [<-|[]]. contradiction.
Qed.

Lemma store_ok_step (term : string) (mv : option Movie) (w : world) :
  store_ok (store w) (next_id w) ->
  let w' := snd (updateSearchCount term mv w) in
  store_ok (store w') (next_id w').
Proof.
  intros (Hwf & Hterm & Hpos). cbv zeta.
  split; [exact (updateSearchCount_wf term mv w Hwf)|].
  destruct (updateSearchCount_store term mv w Hwf)
    as [(-> & _)|[(doc & l1 & l2 & Hs & _ & _ & -> & _)
                 |(m & _ & Hm & -> & _)]].
  - auto.
  - rewrite Hs in Hterm, Hpos. unfold one_per_term, counts_positive in *.
    split.
    + rewrite map_app in *. exact Hterm.
    + rewrite Forall_app in *. destruct Hpos as [Ha Hb]. split; [exact Ha|].
      inversion Hb; subst. constructor; [cbn; lia|assumption].
  - unfold one_per_term, counts_positive in *. split.
    + rewrite map_app. cbn. apply NoDup_snoc; [exact Hterm|].
      now apply matching_none_not_in.
    + rewrite Forall_app. split; [exact Hpos|].
      constructor; [cbn; lia|constructor].
Qed.

(** X3.  [updateSearchCount] keeps the collection well formed: if
    identifiers are unique, no two documents share a search term and every
    count is at least one, the same holds afterwards, whatever the term,
    the movie and the transport. *)
Theorem updateSearchCount_keeps_store_ok
        (term : string) (mv : option Movie) (w : world) :
  store_ok (store w) (next_id w) ->
  let w' := snd (updateSearchCount term mv w) in
  store_ok (store w') (next_id w').
Proof. exact (store_ok_step term mv w). Qed.

Lemma store_ok_six : store_ok six_records 6.
Proof.
  unfold store_ok, store_wf, one_per_term, counts_positive, six_records.
  cbn. repeat split.
  - repeat (constructor; [cbn; intuition discriminate|]). constructor.
  - repeat (constructor; [cbn; lia|]). constructor.
  - repeat (constructor; [cbn; intuition discriminate|]). constructor.
  - repeat (constructor; [cbn; lia|]). constructor.
Qed.

Lemma updateSearchCount_keeps_store_ok_witness :
  let w' := snd (updateSearchCount "joker" (Some joker) busy_world) in
  store_ok (store busy_world) (next_id busy_world) /\
  store_ok (store w') (next_id w').
Proof.
  cbv zeta. split; [exact store_ok_six|].
  exact (updateSearchCount_keeps_store_ok "joker" (Some joker) busy_world
           store_ok_six).
Defined.

(** X4.  [updateSearchCount] never deletes a document and never changes a
    document of another term: every document of the collection is still
    there afterwards under its identifier, with its term, movie and poster,
    and with a count that is the same or one higher; a document whose term
    is not the one searched is there unchanged.  At most one document is
    added. *)
Theorem updateSearchCount_never_loses
        (term : string) (mv : option Movie) (w : world) :
  store_wf (store w) (next_id w) ->
  let w' := snd (updateSearchCount term mv w) in
  length (store w) <= length (store w') <= S (length (store w)) /\
  forall d, In d (store w) ->
    (searchTerm d <> term -> In d (store w')) /\
    exists d',
      In d' (store w') /\ doc_id d' = doc_id d /\
      searchTerm d' = searchTerm d /\ movie_id d' = movie_id d /\
      poster_url d' = poster_url d /\
      (count d <= count d' <= count d + 1)%Z.
Proof.
  intros Hwf. cbv zeta.
  destruct (updateSearchCount_store term mv w Hwf)
    as [(-> & _)|[(doc & l1 & l2 & Hs & _ & Ht & -> & _)
                 |(m & _ & _ & -> & _)]].
  - split; [lia|]. intros d Hd. split; [auto|].
    exists d. repeat split; auto; lia.
  - rewrite Hs. rewrite !length_app. cbn. split; [lia|].
    intros d Hd. apply in_app_or in Hd.
    destruct Hd as [Hd|[<-|Hd]].
    + split; [intros _; apply in_or_app; now left|].
      exists d. repeat split; try lia. apply in_or_app; now left.
    + split; [intros H; contradiction|].
      exists (with_count doc (count doc + 1)).
      repeat split; cbn; try lia. apply in_or_app. right. now left.
    + split; [intros _; apply in_or_app; right; now right|].
      exists d. repeat split; try lia. apply in_or_app. right. now right.
  - rewrite length_app. cbn. split; [lia|].
    intros d Hd. split; [intros _; apply in_or_app; now left|].
    exists d. repeat split; try lia. apply in_or_app; now left.
Qed.

Lemma updateSearchCount_never_loses_witness :
  let w' := snd (updateSearchCount "joker" (Some batman) busy_world) in
  store_wf (store busy_world) (next_id busy_world) /\
  length (store w') = 6 /\
  In (record 0 "batman" 3) (store w') /\
  In (record 1 "joker" 8) (store w').
Proof.
  cbv zeta. split; [exact (proj1 store_ok_six)|].
  destruct (updateSearchCount_never_loses "joker" (Some batman) busy_world
              (proj1 store_ok_six)) as [_ H].
  destruct (H (record 0 "batman" 3) ltac:(now left)) as [Hin _].
  split; [reflexivity|]. split; [apply Hin; discriminate|].
  cbn. right. now left.
Defined.

(** X5.  [updateSearchCount] given [undefined] as the movie, for a term the
    collection does not know: the lookup goes through, reading [movie.id]
    raises, the function's own handler logs the error and nothing is
    written. *)
Theorem updateSearchCount_undefined_movie (term : string) (w : world) :
  matching term (store w) = [] ->
  hd false (faults w) = false ->
  exists w',
    updateSearchCount term None w = (Ok tt, w') /\
    store w' = store w /\ next_id w' = next_id w /\ ui w' = ui w /\
    trace w'
    = Console LevelError "Error updating search count:"
        (JsTypeError "Cannot read properties of undefined")
        :: Called_updateSearchCount term None :: trace w.
Proof.
  intros Hm Hf. destruct w as [u st nx fs tr]. cbn in Hm, Hf. run_store.
  destruct fs as [|[] fs]; try discriminate; cbn; rewrite Hm; cbn;
    eexists; repeat split; reflexivity.
Qed.

Lemma updateSearchCount_undefined_movie_witness :
  matching "tenet" (store busy_world) = [] /\
  hd false (faults busy_world) = false /\
  store (snd (updateSearchCount "tenet" None busy_world)) = six_records /\
  fst (updateSearchCount "tenet" None busy_world) = Ok tt.
Proof.
  split; [reflexivity|]. split; [reflexivity|].
  destruct (updateSearchCount_undefined_movie "tenet" busy_world
              eq_refl eq_refl) as (w' & E & Hst & _).
  rewrite E. cbn [fst snd]. split; [exact Hst|reflexivity].
Defined.

Lemma transport_works_next (fs : list bool) :
  transport_works fs = true ->
  calls_succeed 2 fs = true /\ transport_works (skipn 2 fs) = true.
Proof.
  unfold transport_works, calls_succeed.
  destruct fs as [|[] [|[] fs]]; cbn; auto; discriminate.
Qed.

(** The record of the term stands last in the collection: a search that
    goes through raises its count and leaves it last. *)
Lemma updateSearchCount_last (term : string) (mv : option Movie) (w : world)
      (st : list document) (d : document) :
  store_wf (store w) (next_id w) ->
  store w = st ++ [d] ->
  matching term st = [] ->
  searchTerm d = term ->
  calls_succeed 2 (faults w) = true ->
  let w' := snd (updateSearchCount term mv w) in
  store w' = st ++ [with_count d (count d + 1)] /\
  next_id w' = next_id w /\
  faults w' = skipn 2 (faults w).
Proof.
  intros Hwf Hst Hm Ht Hf. cbv zeta.
  assert (Hmatch : matching term (store w) = [d]).
  { rewrite Hst, matching_app, Hm. unfold matching. cbn.
    rewrite Ht. now rewrite String.eqb_refl. }
  destruct (updateSearchCount_found term mv w d [] Hwf Hmatch)
    as (l1 & l2 & Hs & Hl1 & Hn & _ & Hgo). cbv zeta in Hn, Hgo.
  destruct (Hgo Hf) as [Hst' Hfs].
  assert (Hl : l1 = st /\ l2 = []).
  { rewrite Hst in Hs. destruct l2 as [|x l2].
    - apply app_inj_tail in Hs. destruct Hs as [Hs _]. now split.
    - exfalso.
      destruct (@exists_last _ (x :: l2) ltac:(discriminate))
        as (l2' & y & Hl2).
      rewrite Hl2 in Hs.
      change (l1 ++ d :: l2' ++ [y]) with (l1 ++ (d :: l2') ++ [y]) in Hs.
      rewrite app_assoc in Hs. apply app_inj_tail in Hs.
      destruct Hs as [Hs _].
      apply (proj1 (matching_none_iff term st) Hm d); [|exact Ht].
      rewrite Hs. apply in_or_app. right. now left. }
  destruct Hl as [-> ->]. auto.
Qed.

Lemma updateSearchCount_times_last (k : nat) (term : string) (m : Movie) :
  forall (w : world) (st : list document) (d : document),
    store_wf (store w) (next_id w) ->
    store w = st ++ [d] ->
    matching term st = [] ->
    searchTerm d = term ->
    transport_works (faults w) = true ->
    fst (updateSearchCount_times k term m w) = Ok tt /\
    store (snd (updateSearchCount_times k term m w))
    = st ++ [with_count d (count d + Z.of_nat k)].
Proof.
  induction k as [|k IH]; intros w st d Hwf Hst Hm Ht Hf.
  - cbn. split; [reflexivity|]. rewrite Hst, Z.add_0_r.
    destruct d; reflexivity.
  - destruct (transport_works_next _ Hf) as [Hf2 Hnext].
    pose proof (updateSearchCount_last term (Some m) w st d
                  Hwf Hst Hm Ht Hf2) as (Hst1 & Hn1 & Hfs1).
    pose proof (updateSearchCount_wf term (Some m) w Hwf) as Hwf1.
    cbv zeta in Hwf1.
    destruct (updateSearchCount_returns term (Some m) w)
      as (w1 & evs & E & _).
    rewrite E in Hst1, Hn1, Hfs1, Hwf1. cbn [snd] in *.
    cbn [updateSearchCount_times]. unfold bind. rewrite E.
    rewrite <- Hfs1 in Hnext.
    destruct (IH w1 st (with_count d (count d + 1)) Hwf1 Hst1 Hm Ht Hnext)
      as [Hok Hfin].
    split; [exact Hok|]. rewrite Hfin. cbn [with_count count].
    do 2 f_equal. unfold with_count. cbn. f_equal. lia.
Qed.

(** X6.  Searches for one term add up: over a transport that works, [n + 1]
    recorded searches for a term the collection did not know leave the
    collection with one more document, the record of that term, and its
    count is [n + 1]. *)
Theorem repeated_searches_add_up
        (n : nat) (term : string) (m : Movie) (w : world) :
  store_wf (store w) (next_id w) ->
  matching term (store w) = [] ->
  transport_works (faults w) = true ->
  let w' := snd (updateSearchCount_times (S n) term m w) in
  fst (updateSearchCount_times (S n) term m w) = Ok tt /\
  store w'
  = store w ++ [with_count (new_record (next_id w) term m) (Z.of_nat (S n))] /\
  matching term (store w')
  = [with_count (new_record (next_id w) term m) (Z.of_nat (S n))].
Proof.
  intros Hwf Hm Hf. cbv zeta.
  destruct (transport_works_next _ Hf) as [Hf2 Hnext].
  destruct (updateSearchCount_fresh term m w Hm Hf2) as (Hst1 & Hn1 & Hfs1).
  pose proof (updateSearchCount_wf term (Some m) w Hwf) as Hwf1.
  cbv zeta in Hwf1, Hst1, Hn1, Hfs1.
  destruct (updateSearchCount_returns term (Some m) w) as (w1 & evs & E & _).
  rewrite E in Hst1, Hn1, Hfs1, Hwf1. cbn [snd] in *.
  cbn [updateSearchCount_times]. unfold bind. rewrite E.
  rewrite <- Hfs1 in Hnext.
  destruct (updateSearchCount_times_last n term m w1 (store w)
              (new_record (next_id w) term m) Hwf1 Hst1 Hm eq_refl Hnext)
    as [Hok Hfin].
  assert (Hc : with_count (new_record (next_id w) term m)
                 (count (new_record (next_id w) term m) + Z.of_nat n)
               = with_count (new_record (next_id w) term m) (Z.of_nat (S n))).
  { unfold with_count. cbn [new_record count]. f_equal. lia. }
  rewrite Hc in Hfin.
  split; [exact Hok|]. split; [exact Hfin|].
  rewrite Hfin, matching_app, Hm. unfold matching. cbn.
  now rewrite String.eqb_refl.
Qed.

Lemma repeated_searches_add_up_witness :
  let w' := snd (updateSearchCount_times 4 "tenet" batman busy_world) in
  store_wf (store busy_world) (next_id busy_world) /\
  matching "tenet" (store busy_world) = [] /\
  transport_works (faults busy_world) = true /\
  matching "tenet" (store w')
  = [{| doc_id := 6; searchTerm := "tenet"; count := 4; movie_id := 1;
        poster_url := "https://image.tmdb.org/t/p/w500/x.jpg" |}].
Proof.
  cbv zeta. split; [exact (proj1 store_ok_six)|].
  split; [reflexivity|]. split; [reflexivity|].
  exact (proj2 (proj2 (repeated_searches_add_up 3 "tenet" batman busy_world
                         (proj1 store_ok_six) eq_refl eq_refl))).
Defined.

(* ===================================================================== *)
(** * What a search cycle leaves alone *)
(* ===================================================================== *)

(** Finishes a case of [fetchMovies_anatomy] in which the collection is not
    contacted. *)
Ltac quiet_case :=
  split; [repeat split; reflexivity|];
  split; [reflexivity|];
  right; repeat split; reflexivity.

(** One lemma for the whole cycle.  The trending state and the input are
    never written; no warning is ever logged; and the collection is
    either contacted by exactly one [updateSearchCount], run on the
    collection as the cycle found it, or left as it was. *)
Lemma fetchMovies_anatomy (net : fetch_outcome) (query : string) (w : world) :
  let w' := snd (fetchMovies net query w) in
  (trandingMovies (ui w') = trandingMovies (ui w) /\
   isTrendingLoading (ui w') = isTrendingLoading (ui w) /\
   searchTermInput (ui w') = searchTermInput (ui w) /\
   debouncedSearchTerm (ui w') = debouncedSearchTerm (ui w)) /\
  filter is_warning (trace w') = filter is_warning (trace w) /\
  ((exists data m l w0 w1,
       delivers net data /\
       strict_eq_string (Response data) "false" = false /\
       results data = Some (m :: l) /\
       nonempty query = true /\
       store w0 = store w /\ next_id w0 = next_id w /\
       faults w0 = faults w /\
       updateSearchCount query (Some m) w0 = (Ok tt, w1) /\
       store w' = store w1 /\ next_id w' = next_id w1 /\
       faults w' = faults w1)
   \/
   (store w' = store w /\ next_id w' = next_id w /\ faults w' = faults w)).
Proof.
  cbv zeta. destruct (unpaired_surrogate query) eqn:Hu.
  { rewrite (fetchMovies_malformed net query w Hu). cbn. quiet_case. }
  destruct w as [u st nx fs tr].
  unfold fetchMovies, encodeURIComponent. rewrite Hu.
  destruct (nonempty query) eqn:Hq.
  2: { destruct net as [e|[[] [e|data]]]; try (run_fetch; quiet_case).
       destruct (strict_eq_string (Response data) "false") eqn:Hs;
         run_fetch; rewrite Hs; cbn; quiet_case. }
  destruct net as [e|[[] [e|data]]]; try (run_fetch; quiet_case).
  destruct (strict_eq_string (Response data) "false") eqn:Hs;
    [run_fetch; rewrite Hs; cbn; quiet_case|].
  destruct (results data) as [[|m l]|] eqn:Hr;
    try (run_fetch; rewrite Hs; cbn; rewrite ?Hr; cbn; quiet_case).
  run_fetch. rewrite Hs. cbn. rewrite ?Hr. cbn.
  match goal with
  | |- context [updateSearchCount ?t ?mv ?w0] =>
      destruct (updateSearchCount_outcome t mv w0)
        as (w1 & logs & E & Hui & Htr & Hlogs & _);
      rewrite E; cbn in Hui, Htr; cbn; rewrite Hui, Htr
  end.
  split; [repeat split; reflexivity|]. split.
  - rewrite filter_app.
    destruct Hlogs as [->|(e & -> & _)]; reflexivity.
  - left. exists data, m, l.
    match type of E with
    | updateSearchCount _ _ ?w0 = _ => exists w0, w1
    end.
    repeat split; try reflexivity; assumption.
Qed.

(** X7.  The two cycles write disjoint parts of the state.  A search cycle
    never writes the trending list, the trending flag or the input; a
    trending load never writes the movie list, the error message, the
    loading flag or the input, and never changes the collection. *)
Theorem cycles_write_disjoint_state
        (net : fetch_outcome) (query : string) (w : world) :
  let ws := snd (fetchMovies net query w) in
  let wt := snd (loadTrendingMovies w) in
  (trandingMovies (ui ws) = trandingMovies (ui w) /\
   isTrendingLoading (ui ws) = isTrendingLoading (ui w) /\
   searchTermInput (ui ws) = searchTermInput (ui w) /\
   debouncedSearchTerm (ui ws) = debouncedSearchTerm (ui w)) /\
  (movieList (ui wt) = movieList (ui w) /\
   errorMessage (ui wt) = errorMessage (ui w) /\
   isLoading (ui wt) = isLoading (ui w) /\
   searchTermInput (ui wt) = searchTermInput (ui w) /\
   debouncedSearchTerm (ui wt) = debouncedSearchTerm (ui w) /\
   store wt = store w /\ next_id wt = next_id w).
Proof.
  cbv zeta. split; [exact (proj1 (fetchMovies_anatomy net query w))|].
  destruct w as [u st nx fs tr].
  unfold loadTrendingMovies, try_finally, set. run_store.
  destruct fs as [|[] fs]; cbn; repeat split; reflexivity.
Qed.


(** X9.  The handler around the call of [updateSearchCount] never runs: no
    cycle logs a warning, whatever the network, the collection and the
    transport do. *)
Theorem fetchMovies_never_warns
        (net : fetch_outcome) (query : string) (w : world) :
  filter is_warning (trace (snd (fetchMovies net query w)))
  = filter is_warning (trace w).
Proof. exact (proj1 (proj2 (fetchMovies_anatomy net query w))). Qed.

(** The state after a cycle, as far as the collection and the transport
    are concerned: they have no say. *)
Lemma fetchMovies_ui (net : fetch_outcome) (query : string) (w v : world) :
  ui w = ui v ->
  ui (snd (fetchMovies net query w)) = ui (snd (fetchMovies net query v)).
Proof.
  destruct (unpaired_surrogate query) eqn:Hu.
  { rewrite !(fetchMovies_malformed net query _ Hu). cbn.
    now intros ->. }
  destruct w as [u st nx fs tr], v as [u' st' nx' fs' tr'].
  cbn. intros <-.
  unfold fetchMovies, encodeURIComponent. rewrite Hu.
  destruct (nonempty query) eqn:Hq.
  2: { destruct net as [e|[[] [e|data]]]; try (run_fetch; reflexivity).
       destruct (strict_eq_string (Response data) "false") eqn:Hs;
         run_fetch; rewrite Hs; reflexivity. }
  destruct net as [e|[[] [e|data]]]; try (run_fetch; reflexivity).
  destruct (strict_eq_string (Response data) "false") eqn:Hs;
    [run_fetch; rewrite Hs; reflexivity|].
  destruct (results data) as [[|m l]|] eqn:Hr;
    try (run_fetch; rewrite Hs; cbn; rewrite ?Hr; reflexivity).
  run_fetch. rewrite Hs. cbn. rewrite ?Hr. cbn.
  repeat match goal with
  | |- context [updateSearchCount ?t ?mv ?w0] =>
      let w1 := fresh "w1" in
      let E := fresh "E" in
      let Hui := fresh "Hui" in
      destruct (updateSearchCount_returns t mv w0)
        as (w1 & ? & E & Hui & _ & _);
      rewrite E; cbn in Hui; cbn; rewrite Hui
  end.
  reflexivity.
Qed.

(** X10.  What a search cycle leaves in React state depends on the network
    answer, the query and the state before, and on nothing else: two runs
    that differ only in the collection, in the transport's failures or in
    the log end in the same state.  A failure to record the search cannot
    change what is shown. *)
Theorem fetchMovies_state_ignores_store
        (net : fetch_outcome) (query : string) (w : world)
        (docs : list document) (next : nat) (fs : list bool)
        (log : list event) :
  let v := {| ui := ui w; store := docs; next_id := next; faults := fs;
              trace := log |} in
  ui (snd (fetchMovies net query w)) = ui (snd (fetchMovies net query v)) /\
  render_movies (ui (snd (fetchMovies net query w)))
  = render_movies (ui (snd (fetchMovies net query v))).
Proof.
  cbv zeta.
  assert (H : ui (snd (fetchMovies net query w))
              = ui (snd (fetchMovies net query
                           {| ui := ui w; store := docs; next_id := next;
                              faults := fs; trace := log |})))
    by (apply fetchMovies_ui; reflexivity).
  split; [exact H|]. now rewrite H.
Qed.

Lemma delivers_inj (net : fetch_outcome) (d1 d2 : payload) :
  delivers net d1 -> delivers net d2 -> d1 = d2.
Proof. unfold delivers. intros -> H. now injection H. Qed.

Lemma thrown_not_delivers (net : fetch_outcome) (e : exn) (data : payload) :
  thrown net e -> delivers net data -> False.
Proof. unfold delivers. intros [] H; discriminate H. Qed.

(** X11.  A cycle contacts the collection only for a non-empty query with
    at least one result.  With an empty query, after a fetch that threw,
    after an in-band failure, or with no result, the collection and the
    transport are as they were: no database call was made. *)
Theorem fetchMovies_contacts_store_only_for_hits
        (net : fetch_outcome) (query : string) (w : world) :
  query = ""
  \/ (exists e, thrown net e)
  \/ (exists data,
        delivers net data /\
        (Response data = JStr "false"
         \/ results_or_empty (results data) = [])) ->
  let w' := snd (fetchMovies net query w) in
  store w' = store w /\ next_id w' = next_id w /\ faults w' = faults w.
Proof.
  intros H. cbv zeta.
  destruct (fetchMovies_anatomy net query w) as (_ & _ & [Hcall|Hquiet]);
    [|exact Hquiet].
  exfalso.
  destruct Hcall as (data & m & l & w0 & w1 & Hd & Hs & Hr & Hq & _).
  destruct H as [->|[(e & He)|(data' & Hd' & [Hb|Hn])]].
  - discriminate Hq.
  - exact (thrown_not_delivers _ _ _ He Hd).
  - rewrite (delivers_inj _ _ _ Hd Hd'), Hb in Hs. discriminate Hs.
  - rewrite <- (delivers_inj _ _ _ Hd Hd'), Hr in Hn. discriminate Hn.
Qed.

Lemma fetchMovies_contacts_store_only_for_hits_witness :
  let w' := snd (fetchMovies (answers (body (Some [batman]))) ""
                   write_fails_world) in
  "" = "" /\
  store w' = [batman_record] /\ next_id w' = 1 /\
  faults w' = [false; true].
Proof.
  split; [reflexivity|].
  exact (fetchMovies_contacts_store_only_for_hits
           (answers (body (Some [batman]))) "" write_fails_world
           (or_introl eq_refl)).
Defined.

(** X12.  A search cycle keeps the collection well formed: unique
    identifiers, one document per search term and counts of at least one
    survive every cycle, whatever the network and the transport do. *)
Theorem fetchMovies_keeps_store_ok
        (net : fetch_outcome) (query : string) (w : world) :
  store_ok (store w) (next_id w) ->
  let w' := snd (fetchMovies net query w) in
  store_ok (store w') (next_id w').
Proof.
  intros Hok. cbv zeta.
  destruct (fetchMovies_anatomy net query w)
    as (_ & _ & [Hcall|(-> & -> & _)]); [|exact Hok].
  destruct Hcall
    as (data & m & l & w0 & w1 & _ & _ & _ & _ & Hst & Hnx & _ & E
        & -> & -> & _).
  rewrite <- Hst, <- Hnx in Hok.
  pose proof (store_ok_step query (Some m) w0 Hok) as H.
  cbv zeta in H. now rewrite E in H.
Qed.

Lemma fetchMovies_keeps_store_ok_witness :
  let w' := snd (fetchMovies (answers (body (Some [batman]))) "dune"
                   busy_world) in
  store_ok (store busy_world) (next_id busy_world) /\
  store_ok (store w') (next_id w').
Proof.
  cbv zeta. split; [exact store_ok_six|].
  exact (fetchMovies_keeps_store_ok
           (answers (body (Some [batman]))) "dune" busy_world store_ok_six).
Defined.

(** X13.  When the catalogue delivers a result array and no in-band
    failure, the component ends up displaying exactly that array, with no
    error message, for every query that could be sent and whatever happens
    to the recording of the search. *)
Theorem delivered_results_are_displayed
        (net : fetch_outcome) (data : payload) (l : list Movie)
        (query : string) (w : world) :
  unpaired_surrogate query = false ->
  delivers net data ->
  strict_eq_string (Response data) "false" = false ->
  results data = Some l ->
  let w' := snd (fetchMovies net query w) in
  errorMessage (ui w') = JStr "" /\
  render_movies (ui w') = Ok (MoviesList l).
Proof.
  intros Hu Hd Hs Hr. cbv zeta.
  destruct (fetchMovies_delivered net data query w Hu Hd Hs)
    as (w' & evs & E & Hlist & Hload & _ & Hcase).
  rewrite E. cbn [snd]. rewrite Hr in Hlist, Hcase. cbn in Hlist.
  assert (Hmsg : errorMessage (ui w') = JStr "").
  { destruct (nonempty query); [destruct l|]; tauto. }
  split; [exact Hmsg|].
  unfold render_movies. now rewrite Hload, Hmsg, Hlist.
Qed.

Lemma delivered_results_are_displayed_witness :
  let data := body (Some [joker; batman]) in
  let w' := snd (fetchMovies (answers data) "joker" offline_world) in
  unpaired_surrogate "joker" = false /\
  delivers (answers data) data /\
  strict_eq_string (Response data) "false" = false /\
  results data = Some [joker; batman] /\
  errorMessage (ui w') = JStr "" /\
  render_movies (ui w') = Ok (MoviesList [joker; batman]).
Proof.
  cbv zeta. split; [reflexivity|]. split; [reflexivity|].
  split; [reflexivity|]. split; [reflexivity|].
  exact (delivered_results_are_displayed
           (answers (body (Some [joker; batman])))
           (body (Some [joker; batman])) [joker; batman] "joker"
           offline_world eq_refl eq_refl eq_refl eq_refl).
Defined.

(** X14.  When the fetch, made for a query that could be escaped, is
    rejected, the status is not a success or the body does not parse, the
    cycle logs the exception once with
    [console.error], displays the generic message, does not call
    [updateSearchCount] and does not contact the collection. *)
Theorem thrown_failure_shows_generic_error
        (net : fetch_outcome) (e : exn) (query : string) (w : world) :
  unpaired_surrogate query = false ->
  thrown net e ->
  let w' := snd (fetchMovies net query w) in
  render_movies (ui w') = Ok (MoviesError generic_error_text) /\
  (exists evs,
      trace w' = evs ++ trace w /\
      filter is_console evs = [Console LevelError "Error fetching movies:" e] /\
      calls evs = []) /\
  store w' = store w /\ faults w' = faults w.
Proof.
  intros Hu H. cbv zeta.
  destruct (fetchMovies_anatomy net query w) as (_ & _ & Hb).
  destruct (fetchMovies_thrown net e query w Hu H)
    as (w' & E & Hmsg & _ & Hload & Htr).
  rewrite E in *. cbn [snd] in *. split; [|split].
  - unfold render_movies. now rewrite Hload, Hmsg.
  - eexists. split; [exact Htr|]. split; reflexivity.
  - destruct Hb as [(data & m & l & w0 & w1 & Hd & _)|(Hst & _ & Hfs)].
    + exfalso. exact (thrown_not_delivers _ _ _ H Hd).
    + auto.
Qed.

Lemma thrown_failure_shows_generic_error_witness :
  let w' := snd (fetchMovies server_error "joker" busy_world) in
  unpaired_surrogate "joker" = false /\
  thrown server_error (JsError "Failed to fetch movies") /\
  render_movies (ui w') = Ok (MoviesError generic_error_text) /\
  store w' = six_records.
Proof.
  cbv zeta. split; [reflexivity|]. split; [constructor|].
  destruct (thrown_failure_shows_generic_error
              server_error (JsError "Failed to fetch movies") "joker"
              busy_world eq_refl (thrown_status _))
    as (Hr & _ & Hst & _).
  split; [exact Hr|exact Hst].
Defined.

(* ===================================================================== *)
(** * The escaped query *)
(* ===================================================================== *)

(** X15.  Whatever the query, what [encodeURIComponent] returns for it
    consists of letters, digits, the marks [- _ . ! ~ * ' ( )] and the
    percent sign: no space and none of [& = ? # / +] can reach the URL
    through the query. *)
Theorem encodeURIComponent_output_is_safe (s escaped : string) :
  encodeURIComponent s = Ok escaped ->
  Forall (fun c => unreserved c = true \/ c = "%"%char) (chars escaped) /\
  forall c, In c [" "; "&"; "="; "?"; "#"; "/"; "+"]%char ->
            ~ In c (chars escaped).
Proof.
  unfold encodeURIComponent.
  destruct (unpaired_surrogate s); [discriminate|].
  intros H. injection H as <-. apply escape_octets_safe.
Qed.

Lemma encodeURIComponent_output_is_safe_witness :
  encodeURIComponent "a&b=c/d?e f#g+h" = Ok "a%26b%3Dc%2Fd%3Fe%20f%23g%2Bh" /\
  Forall (fun c => unreserved c = true \/ c = "%"%char)
         (chars "a%26b%3Dc%2Fd%3Fe%20f%23g%2Bh").
Proof.
  split; [reflexivity|].
  exact (proj1 (encodeURIComponent_output_is_safe
                  "a&b=c/d?e f#g+h" "a%26b%3Dc%2Fd%3Fe%20f%23g%2Bh" eq_refl)).
Defined.

(** X16.  The endpoint tells the query: two queries that differ have
    endpoints that differ, so no two searches are confused by the escaping
    and no search is taken for the discover request. *)
Theorem distinct_queries_fetch_distinct_endpoints (q1 q2 : string) :
  q1 <> q2 -> endpoint_of q1 <> endpoint_of q2.
Proof.
  intros Hne H. apply Hne. unfold endpoint_of, nonempty in H.
  destruct (String.eqb_spec q1 "") as [->|H1],
           (String.eqb_spec q2 "") as [->|H2]; cbn [negb] in H.
  - reflexivity.
  - symmetry in H. exfalso. exact (search_differs_from_discover _ H).
  - exfalso. exact (search_differs_from_discover _ H).
  - apply escape_octets_inj. unfold search_endpoint in H.
    cbn in H. now inversion H.
Qed.

Lemma distinct_queries_fetch_distinct_endpoints_witness :
  "star wars" <> "star%20wars" /\
  endpoint_of "star wars" <> endpoint_of "star%20wars".
Proof.
  assert (H : "star wars" <> "star%20wars") by discriminate.
  split; [exact H|].
  exact (distinct_queries_fetch_distinct_endpoints _ _ H).
Defined.

(* ===================================================================== *)
(** * The loading flag *)
(* ===================================================================== *)

(** X17.  A cycle whose query holds no surrogate without a partner returns,
    whatever the network, the payload, the collection and the transport
    do, and its last action is the update that clears [isLoading]: the
    flag is down when the cycle is over. *)
Theorem fetchMovies_clears_isLoading_last
        (net : fetch_outcome) (query : string) (w : world) :
  unpaired_surrogate query = false ->
  exists w' evs,
    fetchMovies net query w = (Ok tt, w') /\
    trace w' = Update (SetIsLoading false) :: evs ++ trace w /\
    hd_error (updates (trace w')) = Some (SetIsLoading false) /\
    isLoading (ui w') = false.
Proof.
  intros Hu.
  destruct (fetchMovies_returns net query w Hu)
    as (w' & evs & E & Hl & Htr & _).
  exists w', evs. repeat split; auto. now rewrite Htr.
Qed.

Lemma fetchMovies_clears_isLoading_last_witness :
  unpaired_surrogate "batman" = false /\
  exists w' evs,
    fetchMovies (answers (body (Some [joker]))) "batman" write_fails_world
    = (Ok tt, w') /\
    trace w'
    = Update (SetIsLoading false) :: evs ++ trace write_fails_world /\
    hd_error (updates (trace w')) = Some (SetIsLoading false) /\
    isLoading (ui w') = false.
Proof.
  split; [reflexivity|].
  exact (fetchMovies_clears_isLoading_last
           (answers (body (Some [joker]))) "batman" write_fails_world
           eq_refl).
Defined.
